(** * tooltip.js: a shallow embedding of the map tooltip script

    The script looks up the overlay element, enumerates the [path]
    elements of the document and registers a [mousemove] and a
    [mouseleave] listener on each of them.  The embedding keeps the
    shape of the script: an element store addressed by references, a
    listener table holding the two closures with their captured
    variables, and a small state-and-exception monad in which the host
    calls of the script are the primitive operations. *)

From Stdlib Require Import ZArith String Ascii DecimalString DecimalZ Bool.
From stdpp Require Import base option list gmap strings.

Local Open Scope string_scope.
Local Open Scope nat_scope.

(** ** JavaScript numbers

    A Number is an IEEE 754 double.  A finite double is an integer or a
    dyadic fraction [a / 2 ^ j] with [a] odd; [-0], which prints and
    adds like [0] in every expression of the script, is not kept apart
    from it. *)

Inductive number :=
| Int (n : Z)
| Frac (a : Z) (j : positive)
| Infinite (negative : bool)
| NaN.

Fixpoint odd_part (p : positive) : positive :=
  match p with
  | xO p' => odd_part p'
  | _ => p
  end.

Fixpoint trailing_zeros (p : positive) : Z :=
  match p with
  | xO p' => Z.succ (trailing_zeros p')
  | _ => 0%Z
  end.

Definition is_double (x : number) : bool :=
  match x with
  | Int 0 => true
  | Int (Zpos p) | Int (Zneg p) =>
      (Zpos (odd_part p) <? 2 ^ 53)%Z && (Zpos p <? 2 ^ 1024)%Z
  | Frac a j =>
      Z.odd a && (Z.abs a <? 2 ^ 53)%Z && (Zpos j <=? 1074)%Z
  | Infinite _ | NaN => true
  end.

(** The exact value [a * 2 ^ e] of a sum before it is rounded. *)
Definition dyadic : Type := Z * Z.

Definition to_dyadic (x : number) : dyadic :=
  match x with
  | Int n => (n, 0%Z)
  | Frac a j => (a, Zneg j)
  | _ => (0%Z, 0%Z)
  end.

Definition canon (d : dyadic) : number :=
  let '(a, e) := d in
  match a with
  | 0%Z => Int 0
  | Zpos p | Zneg p =>
      if (0 <=? e)%Z then Int (a * 2 ^ e)
      else
        let z := Z.min (trailing_zeros p) (- e) in
        let a' := (a / 2 ^ z)%Z in
        let e' := (e + z)%Z in
        if (e' =? 0)%Z then Int a' else Frac a' (Z.to_pos (- e'))
  end.

Definition representable (d : dyadic) : bool := is_double (canon d).

(** Round to nearest, ties to the even significand. *)
Definition round_half_even (m d : Z) : Z :=
  let quo := (m / 2 ^ d)%Z in
  let rem := (m mod 2 ^ d)%Z in
  let half := (2 ^ (d - 1))%Z in
  if (half <? rem)%Z || ((rem =? half)%Z && Z.odd quo) then (quo + 1)%Z else quo.

(** The double nearest to a value that is not one: 53 significant
    bits, exponents down to [-1074], infinity from [2 ^ 1024] on. *)
Definition nearest (d : dyadic) : number :=
  let '(a, e) := d in
  let m := Z.abs a in
  let size := (Z.log2 m + 1)%Z in
  let q := Z.max (e + size - 53) (-1074) in
  let m' := if (q <=? e)%Z then (m * 2 ^ (e - q))%Z else round_half_even m (q - e) in
  if (1024 <? Z.log2 m' + 1 + q)%Z then Infinite (a <? 0)%Z
  else canon ((Z.sgn a * m')%Z, q).

Definition round (d : dyadic) : number :=
  if representable d then canon d else nearest d.

Definition number_add (x y : number) : number :=
  match x, y with
  | NaN, _ | _, NaN => NaN
  | Infinite s1, Infinite s2 => if Bool.eqb s1 s2 then Infinite s1 else NaN
  | Infinite s, _ | _, Infinite s => Infinite s
  | _, _ =>
      let '(a1, e1) := to_dyadic x in
      let '(a2, e2) := to_dyadic y in
      let e0 := Z.min e1 e2 in
      round ((a1 * 2 ^ (e1 - e0) + a2 * 2 ^ (e2 - e0))%Z, e0)
  end.

(** ** Number::toString

    The digits are those of the shortest decimal that rounds to the
    double, the closest one if there are several; the notation is
    positional between [1e-6] and [1e21] and exponential outside. *)

Definition decimal (n : Z) : string := NilZero.string_of_int (Z.to_int n).

Definition digits_of (n : Z) : Z := Z.of_nat (String.length (decimal n)).

(** Compare [s * 10 ^ t] with [x * 2 ^ b]. *)
Definition compare_scaled (s t x b : Z) : comparison :=
  (s * 10 ^ Z.max t 0 * 2 ^ Z.max (- b) 0
   ?= x * 2 ^ Z.max b 0 * 10 ^ Z.max (- t) 0)%Z.

Record interval := Interval {
  iv_value : Z;
  iv_low : Z;
  iv_high : Z;
  iv_exp : Z;
  iv_closed : bool
}.

(** The reals that round to the double [m * 2 ^ e], [m > 0], in units
    of [2 ^ iv_exp]. *)
Definition rounding_interval (m e : Z) : interval :=
  let size := (Z.log2 m + 1)%Z in
  let sh := Z.min (53 - size) (e + 1074) in
  let M := if (0 <=? sh)%Z then (m * 2 ^ sh)%Z else (m / 2 ^ (- sh))%Z in
  let E := (e - sh)%Z in
  let low := if (M =? 2 ^ 52)%Z && (-1074 <? E)%Z then (4 * M - 1)%Z
             else (4 * M - 2)%Z in
  Interval (4 * M) low (4 * M + 2) (E - 2) (Z.even M).

Definition inside (iv : interval) (s t : Z) : bool :=
  match compare_scaled s t (iv_low iv) (iv_exp iv),
        compare_scaled s t (iv_high iv) (iv_exp iv) with
  | Gt, Lt => true
  | Eq, _ | _, Eq => iv_closed iv
  | _, _ => false
  end.

(** [n] with [10 ^ (n - 1) <= v < 10 ^ n] for [v = x * 2 ^ b], [x > 0]. *)
Definition decimal_exponent (x b : Z) : Z :=
  let num := (x * 2 ^ Z.max b 0)%Z in
  let den := (2 ^ Z.max (- b) 0)%Z in
  let whole := (num / den)%Z in
  if (1 <=? whole)%Z then digits_of whole
  else (1 - digits_of (den / num))%Z.

Definition floor_scaled (x b t : Z) : Z :=
  let num := (x * 2 ^ Z.max b 0 * 10 ^ Z.max (- t) 0)%Z in
  let den := (2 ^ Z.max (- b) 0 * 10 ^ Z.max t 0)%Z in
  (num / den)%Z.

(** The digits [s] and the exponent [t] of the shortest decimal
    [s * 10 ^ t] that rounds to the double, tried with [k] digits, then
    [k + 1], as long as there is fuel. *)
Fixpoint shortest (fuel : nat) (iv : interval) (n k : Z) : Z * Z :=
  let t := (n - k)%Z in
  let lo := floor_scaled (iv_value iv) (iv_exp iv) t in
  let hi := (lo + 1)%Z in
  let in_lo := (0 <? lo)%Z && inside iv lo t in
  let in_hi := inside iv hi t in
  let pick :=
    if in_lo && in_hi then
      match compare_scaled (2 * lo + 1) t (2 * iv_value iv) (iv_exp iv) with
      | Gt => Some lo
      | Lt => Some hi
      | Eq => Some (if Z.even lo then lo else hi)
      end
    else if in_lo then Some lo
    else if in_hi then Some hi
    else None in
  match pick, fuel with
  | Some s, _ => (s, t)
  | None, O => (lo, t)
  | None, S fuel' => shortest fuel' iv n (k + 1)
  end.

Fixpoint strip_zeros (fuel : nat) (s t : Z) : Z * Z :=
  match fuel with
  | O => (s, t)
  | S fuel' =>
      if (s mod 10 =? 0)%Z && negb (s =? 0)%Z
      then strip_zeros fuel' (s / 10) (t + 1)
      else (s, t)
  end.

Fixpoint zeros (n : nat) : string :=
  match n with
  | O => ""
  | S n' => String "0" (zeros n')
  end.

Fixpoint take (n : nat) (s : string) : string :=
  match n, s with
  | S n', String c s' => String c (take n' s')
  | _, _ => ""
  end.

Fixpoint drop (n : nat) (s : string) : string :=
  match n, s with
  | S n', String _ s' => drop n' s'
  | _, _ => s
  end.

(** The notation of the decimal with digits [ds] and
    [10 ^ (n - 1) <= value < 10 ^ n]. *)
Definition notation (ds : string) (n : Z) : string :=
  let k := Z.of_nat (String.length ds) in
  if (k <=? n)%Z && (n <=? 21)%Z then
    ds +:+ zeros (Z.to_nat (n - k))
  else if (0 <? n)%Z && (n <=? 21)%Z then
    take (Z.to_nat n) ds +:+ "." +:+ drop (Z.to_nat n) ds
  else if (-6 <? n)%Z && (n <=? 0)%Z then
    "0." +:+ zeros (Z.to_nat (- n)) +:+ ds
  else
    let e := (n - 1)%Z in
    let sign := if (e <? 0)%Z then "-" else "+" in
    let mantissa :=
      if (k =? 1)%Z then ds else take 1 ds +:+ "." +:+ drop 1 ds in
    mantissa +:+ "e" +:+ sign +:+ decimal (Z.abs e).

Definition shortest_notation (m e : Z) : string :=
  let iv := rounding_interval m e in
  let n := decimal_exponent (iv_value iv) (iv_exp iv) in
  let '(s, t) := shortest 16 iv n 1 in
  let '(s', t') := strip_zeros 400 s t in
  let ds := decimal s' in
  notation ds (t' + Z.of_nat (String.length ds)).

(** On the integers up to [2 ^ 53] the shortest decimal is the integer
    itself, and the definition takes its digits directly. *)
Definition number_to_string (x : number) : string :=
  match x with
  | NaN => "NaN"
  | Infinite false => "Infinity"
  | Infinite true => "-Infinity"
  | Int n =>
      if (Z.abs n <=? 2 ^ 53)%Z then decimal n
      else (if (n <? 0)%Z then "-" else "") +:+ shortest_notation (Z.abs n) 0
  | Frac a j =>
      (if (a <? 0)%Z then "-" else "") +:+ shortest_notation (Z.abs a) (Zneg j)
  end.

(** The general rule applied to every double, to compare. *)
Definition general_to_string (x : number) : string :=
  match x with
  | Int 0 => "0"
  | Int n => (if (n <? 0)%Z then "-" else "") +:+ shortest_notation (Z.abs n) 0
  | _ => number_to_string x
  end.

(** ** JavaScript primitive values

    Only the primitives the script manipulates: [null], numbers and
    strings. *)

Inductive prim :=
| PNull
| PNum (n : number)
| PStr (s : string).

Definition ToString (v : prim) : string :=
  match v with
  | PNull => "null"
  | PNum n => number_to_string n
  | PStr s => s
  end.

(** ToNumber on the primitives that are not strings. *)
Definition ToNumber (v : prim) : number :=
  match v with
  | PNum n => n
  | _ => Int 0
  end.

(** The binary [+] operator: string concatenation as soon as one
    operand is a string, numeric addition otherwise. *)
Definition js_add (a b : prim) : prim :=
  match a, b with
  | PStr _, _ | _, PStr _ => PStr (ToString a +:+ ToString b)
  | _, _ => PNum (number_add (ToNumber a) (ToNumber b))
  end.

(** ** The document *)

(** Elements are addressed by their position in the store. *)
Abbreviation ref := nat (only parsing).

(** An element object.  [attributes] holds its content attributes
    other than [style]; the declarations of the [style] attribute are
    held by [style], which maps a property to the value last assigned
    to it, without their order; [innerHTML] is the markup last assigned
    to the element, whose parse into child nodes is not modelled beyond
    its text ([textContent] below). *)
Record element := Element {
  tagName : string;
  attributes : gmap string string;
  style : gmap string string;
  innerHTML : string
}.

(** [Element.id] reflects the [id] content attribute, and is the empty
    string when the attribute is absent. *)
Definition elem_id (el : element) : string :=
  default "" (attributes el !! "id").

(** [el.style.prop = value]: the declaration is set in the element's
    [style] attribute, its other attributes are not touched. *)
Definition with_style (prop value : string) (el : element) : element :=
  {| tagName := tagName el;
     attributes := attributes el;
     style := <[prop := value]> (style el);
     innerHTML := innerHTML el |}.

(** [el.innerHTML = markup]: the element's content becomes the parse
    of [markup]. *)
Definition with_innerHTML (markup : string) (el : element) : element :=
  {| tagName := tagName el;
     attributes := attributes el;
     style := style el;
     innerHTML := markup |}.

Definition with_attribute (name value : string) (el : element) : element :=
  {| tagName := tagName el;
     attributes := <[name := value]> (attributes el);
     style := style el;
     innerHTML := innerHTML el |}.

Inductive event_type := Mousemove | Mouseleave.

Global Instance event_type_eq_dec : EqDecision event_type.
Proof. solve_decision. Defined.

(** The coordinates of a mouse event are finite doubles. *)
Record MouseEvent := { pageX : number; pageY : number }.

(** The two arrow functions of the script, as closures over the
    variables they capture: [tooltip] (an element or [null]) and, for
    the move listener, [state]. *)
Inductive closure :=
| MoveClosure (tooltip : option ref) (state : ref)
| LeaveClosure (tooltip : option ref).

Record registration := Registration {
  reg_target : ref;
  reg_type : event_type;
  reg_callback : closure
}.

(** Values a top-level binding of the script can hold. *)
Inductive binding :=
| BElement (el : option ref)
| BFunction (c : closure).

Definition callable (b : binding) : bool :=
  match b with
  | BFunction _ => true
  | BElement _ => false
  end.

(** What [getAttribute] answers for an attribute that is not there:
    [null] in the DOM standard, the empty string in DOM Level 2 Core. *)
Inductive attr_read := MissingIsNull | MissingIsEmpty.

Definition missing_attribute (h : attr_read) : prim :=
  match h with
  | MissingIsNull => PNull
  | MissingIsEmpty => PStr ""
  end.

(** A page: the element store in tree order, the listener table, and
    the top-level bindings scripts have declared. *)
Record page := Page {
  host : attr_read;
  elements : list element;
  listeners : list registration;
  bindings : list (string * binding)
}.

Definition with_elements (els : list element) (p : page) : page :=
  {| host := host p; elements := els;
     listeners := listeners p; bindings := bindings p |}.

Definition with_listeners (ls : list registration) (p : page) : page :=
  {| host := host p; elements := elements p;
     listeners := ls; bindings := bindings p |}.

Definition with_bindings (bs : list (string * binding)) (p : page) : page :=
  {| host := host p; elements := elements p;
     listeners := listeners p; bindings := bs |}.

(** ** The monad of host calls *)

Inductive host_call :=
| CallGetElementById (id : string)
| CallQuerySelectorAll (selector : string)
| CallAddEventListener (target : ref) (type : event_type)
| CallGetAttribute (target : ref) (name : string)
| ReadId (target : ref)
| WriteStyle (target : ref) (prop value : string)
| WriteInnerHTML (target : ref) (markup : string).

Inductive error := TypeError | SyntaxError.

Inductive completion (A : Type) :=
| Normal (a : A)
| Throw (e : error).
Arguments Normal {A} a.
Arguments Throw {A} e.

Record run (A : Type) := Run {
  calls : list host_call;
  outcome : completion A;
  final : page
}.
Arguments Run {A} calls outcome final.
Arguments calls {A} r.
Arguments outcome {A} r.
Arguments final {A} r.

Definition DOM (A : Type) : Type := page → run A.

Definition dom_ret {A} (a : A) : DOM A :=
  λ p, Run [] (Normal a) p.

Definition dom_bind {A B} (f : A → DOM B) (m : DOM A) : DOM B :=
  λ p,
    let r := m p in
    match outcome r with
    | Normal a =>
        let r' := f a (final r) in
        Run (calls r ++ calls r') (outcome r') (final r')
    | Throw e => Run (calls r) (Throw e) (final r)
    end.

Global Instance DOM_ret : MRet DOM := @dom_ret.
Global Instance DOM_bind : MBind DOM := @dom_bind.

Definition throw {A} (e : error) : DOM A :=
  λ p, Run [] (Throw e) p.

Definition tell (c : host_call) : DOM unit :=
  λ p, Run [c] (Normal tt) p.

Definition get_page : DOM page :=
  λ p, Run [] (Normal p) p.

Definition put_page (p' : page) : DOM unit :=
  λ _, Run [] (Normal tt) p'.

(** Member access on a value that may be [null]: a [TypeError] when
    there is nothing to access.  References handed out by the document
    queries always point into the store; a reference that does not is
    treated like [null]. *)
Definition deref (target : option ref) : DOM (ref * element) :=
  p ← get_page;
  match target with
  | Some r =>
      match elements p !! r with
      | Some el => mret (r, el)
      | None => throw TypeError
      end
  | None => throw TypeError
  end.

(** ** Host calls used by the script *)

(** [document.getElementById(id)]: the first element in tree order
    whose id is [id], or [null]. *)
Definition getElementById (id : string) : DOM (option ref) :=
  tell (CallGetElementById id);;
  p ← get_page;
  mret (fst <$> list_find (λ el, elem_id el = id) (elements p)).

(** [document.querySelectorAll(tag)] for a type selector: the elements
    with that tag name, in tree order, each once. *)
Fixpoint select_tag (tag : string) (i : ref) (els : list element) : list ref :=
  match els with
  | [] => []
  | el :: els' =>
      if decide (tagName el = tag)
      then i :: select_tag tag (S i) els'
      else select_tag tag (S i) els'
  end.

Definition querySelectorAll (selector : string) : DOM (list ref) :=
  tell (CallQuerySelectorAll selector);;
  p ← get_page;
  mret (select_tag selector 0 (elements p)).

Definition addEventListener (target : ref) (type : event_type) (cb : closure)
  : DOM unit :=
  tell (CallAddEventListener target type);;
  p ← get_page;
  put_page (with_listeners (listeners p ++ [Registration target type cb]) p).

(** [target.getAttribute(name)], for a name other than [style]. *)
Definition getAttribute (target : ref) (name : string) : DOM prim :=
  tell (CallGetAttribute target name);;
  '(_, el) ← deref (Some target);
  p ← get_page;
  mret (match attributes el !! name with
        | Some v => PStr v
        | None => missing_attribute (host p)
        end).

Definition get_id (target : ref) : DOM string :=
  tell (ReadId target);;
  '(_, el) ← deref (Some target);
  mret (elem_id el).

(** [target.style.prop = value] *)
Definition set_style (target : option ref) (prop value : string) : DOM unit :=
  '(r, el) ← deref target;
  tell (WriteStyle r prop value);;
  p ← get_page;
  put_page (with_elements (<[r := with_style prop value el]> (elements p)) p).

(** [target.innerHTML = markup] *)
Definition set_innerHTML (target : option ref) (markup : string) : DOM unit :=
  '(r, el) ← deref target;
  tell (WriteInnerHTML r markup);;
  p ← get_page;
  put_page (with_elements (<[r := with_innerHTML markup el]> (elements p)) p).

(** A script that declares [name] at its top level is rejected with a
    [SyntaxError], before any of its statements runs, when the page
    already declares that name. *)
Definition declared (name : string) (p : page) : Prop :=
  name ∈ (bindings p).*1.

Global Instance declared_dec name p : Decision (declared name p) :=
  list_elem_of_dec name (bindings p).*1.

Definition check_declarable (name : string) : DOM unit :=
  p ← get_page;
  if decide (declared name p) then throw SyntaxError else mret tt.

(** [const name = value] at the top level of the script: the binding
    is initialised when the statement runs. *)
Definition declare_const (name : string) (b : binding) : DOM unit :=
  p ← get_page;
  put_page (with_bindings (bindings p ++ [(name, b)]) p).

(** [list.forEach(f)] *)
Fixpoint forEach {A} (l : list A) (f : A → DOM unit) : DOM unit :=
  match l with
  | [] => mret tt
  | x :: l' => f x;; forEach l' f
  end.

(** ** The script *)

(** The [mousemove] listener, lines 3 to 9. *)
Definition on_mousemove (tooltip : option ref) (state : ref) (e : MouseEvent)
  : DOM unit :=
  value ← getAttribute state "data-inflation";
  set_style tooltip "left"
    (ToString (js_add (js_add (PNum (pageX e)) (PNum (Int 10))) (PStr "px")));;
  set_style tooltip "top"
    (ToString (js_add (js_add (PNum (pageY e)) (PNum (Int 10))) (PStr "px")));;
  set_style tooltip "display" "block";;
  id ← get_id state;
  set_innerHTML tooltip (id +:+ ": " +:+ ToString value).

(** The [mouseleave] listener, lines 10 to 12. *)
Definition on_mouseleave (tooltip : option ref) : DOM unit :=
  set_style tooltip "display" "none".

Definition call (c : closure) (e : MouseEvent) : DOM unit :=
  match c with
  | MoveClosure tooltip state => on_mousemove tooltip state e
  | LeaveClosure tooltip => on_mouseleave tooltip
  end.

(** The whole script, lines 1 to 13. *)
Definition load_script : DOM unit :=
  check_declarable "tooltip";;
  tooltip ← getElementById "tooltip";
  declare_const "tooltip" (BElement tooltip);;
  paths ← querySelectorAll "path";
  forEach paths (λ state,
    addEventListener state Mousemove (MoveClosure tooltip state);;
    addEventListener state Mouseleave (LeaveClosure tooltip)).

(** ** Event dispatch *)

(** The callbacks registered on [target] for events of type [type], in
    registration order. *)
Definition callbacks_for (target : ref) (type : event_type)
    (ls : list registration) : list closure :=
  reg_callback <$>
    filter (λ g, reg_target g = target ∧ reg_type g = type) ls.

(** The listeners registered on the target run to completion one after
    the other; an exception thrown by one of them is reported by the
    host and does not stop the next one.  A [mouseleave] does not
    bubble.  A [mousemove] does: one that reaches a region from a
    descendant of it is dispatched here with the region as target, and
    regions are taken not to contain one another. *)
Fixpoint invoke_all (cs : list closure) (e : MouseEvent) (p : page) : page :=
  match cs with
  | [] => p
  | c :: cs' => invoke_all cs' e (final (call c e p))
  end.

Definition dispatch (target : ref) (type : event_type) (e : MouseEvent)
    (p : page) : page :=
  invoke_all (callbacks_for target type (listeners p)) e p.

Record pointer_event := PointerEvent {
  ev_target : ref;
  ev_type : event_type;
  ev_mouse : MouseEvent
}.

Definition step (p : page) (ev : pointer_event) : page :=
  dispatch (ev_target ev) (ev_type ev) (ev_mouse ev) p.

(** The host delivers events in the order they were generated. *)
Definition run_events (evs : list pointer_event) (p : page) : page :=
  fold_left step evs p.

(** ** Mutation of a region by other code of the page *)

(** [target.setAttribute(name, value)], for a name other than [style]. *)
Definition setAttribute (target : ref) (name value : string) (p : page) : page :=
  with_elements (alter (with_attribute name value) target (elements p)) p.

(** ** Observations on the overlay *)

Definition overlay_state (el : element)
  : option string * option string * option string * string :=
  (style el !! "left", style el !! "top", style el !! "display", innerHTML el).

Definition shown (el : element) : Prop := style el !! "display" = Some "block".
Definition hidden (el : element) : Prop := style el !! "display" = Some "none".

(** What a user can see of the overlay's content: nothing while it is
    hidden. *)
Definition visible_content (el : element) : option string :=
  if decide (style el !! "display" = Some "none") then None
  else Some (innerHTML el).

(** ** Text of a markup string

    Assigning [innerHTML] hands the string to the host's HTML parser.
    The model follows the tokenizer on the part of its input language
    that matters here: ordinary characters are text, and [&] followed
    by one of the names below and a semicolon is a character
    reference.  Tags, other references, carriage returns and NUL
    characters are outside the model, for which the answer is [None].
    The overlay is taken to be an ordinary flow element, so that the
    tokenizer starts in its data state. *)

Definition quote_char : ascii := ascii_of_nat 34.

Definition named_reference (name : string) : option ascii :=
  if decide (name = "amp") then Some "&"%char
  else if decide (name = "lt") then Some "<"%char
  else if decide (name = "gt") then Some ">"%char
  else if decide (name = "quot") then Some quote_char
  else None.

Definition markup_char (c : ascii) : bool :=
  bool_decide (c = "<"%char ∨ c = "&"%char
               ∨ c = ascii_of_nat 13 ∨ c = ascii_of_nat 0).

Definition name_char (c : ascii) : bool :=
  let n := nat_of_ascii c in
  bool_decide (97 ≤ n ≤ 122)%nat || bool_decide (65 ≤ n ≤ 90)%nat
  || bool_decide (48 ≤ n ≤ 57)%nat.

(** [pending] is [None] in the data state and [Some name] while the
    name of a character reference is being read. *)
Fixpoint tokenize (pending : option string) (s : string) : option string :=
  match s, pending with
  | EmptyString, None => Some EmptyString
  | EmptyString, Some _ => None
  | String c s', None =>
      if decide (c = "&"%char) then tokenize (Some EmptyString) s'
      else if markup_char c then None
      else String c <$> tokenize None s'
  | String c s', Some name =>
      if decide (c = ";"%char) then
        match named_reference name with
        | Some d => String d <$> tokenize None s'
        | None => None
        end
      else if name_char c then tokenize (Some (name +:+ String c EmptyString)) s'
      else None
  end.

Definition text_of_markup (s : string) : option string := tokenize None s.

Definition textContent (el : element) : option string :=
  text_of_markup (innerHTML el).

(** A string without characters that mean something to the parser. *)
Fixpoint plain_text (s : string) : bool :=
  match s with
  | EmptyString => true
  | String c s' => negb (markup_char c) && plain_text s'
  end.

(** ** Reading back a length in pixels *)

Fixpoint strip_px (s : string) : option string :=
  match s with
  | EmptyString => None
  | String c s' =>
      if decide (s = "px") then Some EmptyString
      else String c <$> strip_px s'
  end.

Definition px_value (s : string) : option Z :=
  digits ← strip_px s;
  Z.of_int <$> NilZero.int_of_string digits.

(** ** A page with three elements, used in the examples *)

Definition tooltip_div : element :=
  Element "div" {[ "id" := "tooltip" ]} ∅ "".
Definition path_CA : element :=
  Element "path" {[ "id" := "CA"; "data-inflation" := "3.2%" ]} ∅ "".
Definition path_TX : element :=
  Element "path" {[ "id" := "TX" ]} ∅ "".

Definition demo_document (h : attr_read) : page :=
  Page h [tooltip_div; path_CA; path_TX] [] [].

Definition demo_page (h : attr_read) : page := final (load_script (demo_document h)).

(** ** What the listeners compute *)

(** The value the move listener reads from its region. *)
Definition region_value (h : attr_read) (region : element) : prim :=
  match attributes region !! "data-inflation" with
  | Some v => PStr v
  | None => missing_attribute h
  end.

(** The value of [n + 10 + 'px']. *)
Definition pixels (n : number) : string :=
  ToString (js_add (js_add (PNum n) (PNum (Int 10))) (PStr "px")).

(** The overlay after the move listener ran for event [e] over
    [region]. *)
Definition after_move (h : attr_read) (e : MouseEvent) (region overlay : element)
  : element :=
  with_innerHTML (elem_id region +:+ ": " +:+ ToString (region_value h region))
    (with_style "display" "block"
       (with_style "top" (pixels (pageY e))
          (with_style "left" (pixels (pageX e)) overlay))).

Definition after_leave (overlay : element) : element := with_style "display" "none" overlay.

(** ** Loading the script *)

(** The registrations the [forEach] loop makes for the regions [paths]. *)
Fixpoint script_listeners (tooltip : option ref) (paths : list ref)
  : list registration :=
  match paths with
  | [] => []
  | state :: paths' =>
      Registration state Mousemove (MoveClosure tooltip state)
      :: Registration state Mouseleave (LeaveClosure tooltip)
      :: script_listeners tooltip paths'
  end.

Fixpoint registration_calls (paths : list ref) : list host_call :=
  match paths with
  | [] => []
  | state :: paths' =>
      CallAddEventListener state Mousemove
      :: CallAddEventListener state Mouseleave
      :: registration_calls paths'
  end.

Definition found_tooltip (p : page) : option ref :=
  fst <$> list_find (λ el, elem_id el = "tooltip") (elements p).

Definition found_paths (p : page) : list ref :=
  select_tag "path" 0 (elements p).

(** ** Pages on which the script has been loaded

    [installed t paths p]: the listener table of [p] is the one the
    script builds for the overlay [t] and the regions [paths], and all
    of them are elements of [p]. *)
Record installed (t : ref) (paths : list ref) (p : page) : Prop := {
  installed_listeners : listeners p = script_listeners (Some t) paths;
  installed_NoDup : NoDup paths;
  installed_overlay : is_Some (elements p !! t);
  installed_regions : ∀ r, r ∈ paths → is_Some (elements p !! r)
}.

(** ** Events and pages used as inputs *)

(** An event at whole page coordinates. *)
Definition event_at (x y : Z) : MouseEvent :=
  {| pageX := Int x; pageY := Int y |}.

(** A region whose value is markup: the page author escaped it twice. *)
Definition path_escaped : element :=
  Element "path" {[ "id" := "CA"; "data-inflation" := "&lt;1%" ]} ∅ "".

Definition escaped_page : page :=
  final (load_script (Page MissingIsNull [tooltip_div; path_escaped] [] [])).

(** A region without value whose identifier is markup. *)
Definition path_R_and_D : element :=
  Element "path" {[ "id" := "R&amp;D" ]} ∅ "".

Definition R_and_D_page (h : attr_read) : page :=
  final (load_script (Page h [tooltip_div; path_R_and_D] [] [])).

(** The page of the examples with another overlay to start with:
    hidden, with content left from an earlier move. *)
Definition stale_tooltip : element :=
  Element "div" {[ "id" := "tooltip" ]}
          {[ "display" := "none"; "left" := "15px"; "color" := "red" ]}
          "TX: null".

Definition stale_page : page :=
  final (load_script (Page MissingIsNull [stale_tooltip; path_CA; path_TX] [] [])).

(** ** Sequences of events *)

(** Two pages hold the same document when they agree on the host and
    on the attributes of every element; they may differ in the style
    and the content of their elements. *)
Definition same_document (p1 p2 : page) : Prop :=
  host p1 = host p2 ∧ attributes <$> elements p1 = attributes <$> elements p2.

(** ** Counting the host calls of a run *)

Definition is_element_lookup (c : host_call) : bool :=
  match c with CallGetElementById _ => true | _ => false end.

Definition is_enumeration (c : host_call) : bool :=
  match c with CallQuerySelectorAll _ => true | _ => false end.

Definition is_registration_on (r : ref) (c : host_call) : bool :=
  match c with
  | CallAddEventListener target _ => bool_decide (target = r)
  | _ => false
  end.

Definition is_mutation (c : host_call) : bool :=
  match c with
  | WriteStyle _ _ _ | WriteInnerHTML _ _ => true
  | _ => false
  end.

Fixpoint count_calls (f : host_call → bool) (cs : list host_call) : nat :=
  match cs with
  | [] => 0
  | c :: cs' => (if f c then 1 else 0) + count_calls f cs'
  end.

(** ** What event handling leaves alone *)

(** The part of an element no listener writes to. *)
Definition skeleton (el : element) : string * gmap string string :=
  (tagName el, attributes el).

(** [p'] has the host, the listeners, the bindings and, element by
    element, the tags and attributes of [p]. *)
Definition same_structure (p p' : page) : Prop :=
  host p' = host p ∧
  listeners p' = listeners p ∧
  bindings p' = bindings p ∧
  skeleton <$> elements p' = skeleton <$> elements p.

(** The style properties the script writes. *)
Definition script_property (prop : string) : Prop :=
  prop = "left" ∨ prop = "top" ∨ prop = "display".

(** ** An element added to the document by other code, after the
    elements already there *)

Definition append_element (el : element) (p : page) : page :=
  with_elements (elements p ++ [el]) p.

(** The overlay a closure of the script has captured. *)
Definition closure_tooltip (c : closure) : option ref :=
  match c with
  | MoveClosure tooltip _ => tooltip
  | LeaveClosure tooltip => tooltip
  end.

(** A document without overlay. *)
Definition bare_document : page :=
  Page MissingIsNull [path_CA; path_TX] [] [].

(** * Properties *)

(** ** Numbers at and beyond the whole pixels *)

Example whole_pixels : pixels (Int 100) = "110px".
Proof. reflexivity. Qed.

Example negative_pixels : pixels (Int (-25)) = "-15px".
Proof. reflexivity. Qed.

Example half_pixels : pixels (Frac 201 1) = "110.5px".
Proof. by vm_compute. Qed.

(** [2 ^ 53 - 2] and [2 ^ 53 - 1] plus ten round to the same double. *)
Example rounded_pixels :
  pixels (Int (2 ^ 53 - 2)) = "9007199254741000px" ∧
  pixels (Int (2 ^ 53 - 1)) = "9007199254741000px".
Proof. by vm_compute. Qed.

Example large_pixels :
  pixels (Int (2 ^ 60)) = "1152921504606847000px" ∧
  pixels (Int (10 ^ 21)) = "1e+21px".
Proof. by vm_compute. Qed.

Example tenth_plus_fifth :
  number_to_string
    (number_add (Frac 3602879701896397 55) (Frac 3602879701896397 54))
  = "0.30000000000000004".
Proof. by vm_compute. Qed.

Example overflow_is_infinite :
  number_add (Int (2 ^ 1023)) (Int (2 ^ 1023)) = Infinite false.
Proof. by vm_compute. Qed.

(** On whole numbers the general rule gives the digits the definition
    takes directly. *)
Example general_rule_on_integers :
  general_to_string <$> [Int 0; Int 7; Int 110; Int (-15); Int 1200;
                         Int 4294967296; Int (2 ^ 53 - 1); Int (2 ^ 53)]
  = number_to_string <$> [Int 0; Int 7; Int 110; Int (-15); Int 1200;
                          Int 4294967296; Int (2 ^ 53 - 1); Int (2 ^ 53)].
Proof. by vm_compute. Qed.

(** The same on every whole number a page coordinate plus ten
    ordinarily is. *)
Example general_rule_on_pixel_range :
  forallb (λ n, String.eqb (general_to_string (Int n)) (decimal n))
          ((λ k, Z.of_nat k - 500)%Z <$> seq 0 4500) = true.
Proof. by vm_compute. Qed.

(** ** The scenarios of the specification *)

Example demo_listeners :
  listeners (demo_page MissingIsNull) =
  [ Registration 1 Mousemove (MoveClosure (Some 0) 1);
    Registration 1 Mouseleave (LeaveClosure (Some 0));
    Registration 2 Mousemove (MoveClosure (Some 0) 2);
    Registration 2 Mouseleave (LeaveClosure (Some 0)) ].
Proof. reflexivity. Qed.

(** Scenario 1 of the specification. *)
Example scenario_1 :
  overlay_state <$>
    elements (dispatch 1 Mousemove (event_at 100 200)
                (demo_page MissingIsNull)) !! 0
  = Some (Some "110px", Some "210px", Some "block", "CA: 3.2%").
Proof. vm_compute. reflexivity. Qed.

(** Scenario 2: the content stays, the overlay is hidden. *)
Example scenario_2 :
  overlay_state <$>
    elements (run_events
                [ PointerEvent 1 Mousemove (event_at 100 200);
                  PointerEvent 1 Mouseleave (event_at 0 0) ]
                (demo_page MissingIsNull)) !! 0
  = Some (Some "110px", Some "210px", Some "none", "CA: 3.2%").
Proof. vm_compute. reflexivity. Qed.

(** Scenario 3 under the two attribute-read semantics. *)
Example scenario_3_null :
  overlay_state <$>
    elements (dispatch 2 Mousemove (event_at 5 7)
                (demo_page MissingIsNull)) !! 0
  = Some (Some "15px", Some "17px", Some "block", "TX: null").
Proof. vm_compute. reflexivity. Qed.

Example scenario_3_empty :
  overlay_state <$>
    elements (dispatch 2 Mousemove (event_at 5 7)
                (demo_page MissingIsEmpty)) !! 0
  = Some (Some "15px", Some "17px", Some "block", "TX: ").
Proof. vm_compute. reflexivity. Qed.

Example text_of_reference : text_of_markup "CA: &amp;" = Some "CA: &".
Proof. reflexivity. Qed.

Example px_value_110 : px_value "110px" = Some 110%Z.
Proof. reflexivity. Qed.

(** ** Running the primitives *)

Section Primitives.
Context (p : page).

Lemma bind_normal {A B} (m : DOM A) (f : A → DOM B) cs a p' :
  m p = Run cs (Normal a) p' →
  (m ≫= f) p = Run (cs ++ calls (f a p')) (outcome (f a p')) (final (f a p')).
Proof.
  intros Hm. unfold mbind, DOM_bind, dom_bind. by rewrite Hm.
Qed.

Lemma bind_throw {A B} (m : DOM A) (f : A → DOM B) cs e p' :
  m p = Run cs (Throw e) p' →
  (m ≫= f) p = Run cs (Throw e) p'.
Proof.
  intros Hm. unfold mbind, DOM_bind, dom_bind. by rewrite Hm.
Qed.

Lemma set_style_run t el prop value :
  elements p !! t = Some el →
  set_style (Some t) prop value p =
  Run [WriteStyle t prop value] (Normal tt)
      (with_elements (<[t := with_style prop value el]> (elements p)) p).
Proof.
  intros Ht. unfold set_style, deref, mbind, DOM_bind, dom_bind; simpl.
  by rewrite Ht.
Qed.

Lemma set_style_null prop value :
  set_style None prop value p = Run [] (Throw TypeError) p.
Proof. reflexivity. Qed.

Lemma set_innerHTML_run t el markup :
  elements p !! t = Some el →
  set_innerHTML (Some t) markup p =
  Run [WriteInnerHTML t markup] (Normal tt)
      (with_elements (<[t := with_innerHTML markup el]> (elements p)) p).
Proof.
  intros Ht. unfold set_innerHTML, deref, mbind, DOM_bind, dom_bind; simpl.
  by rewrite Ht.
Qed.

Lemma getAttribute_run r el name :
  elements p !! r = Some el →
  getAttribute r name p =
  Run [CallGetAttribute r name]
      (Normal (match attributes el !! name with
               | Some v => PStr v
               | None => missing_attribute (host p)
               end)) p.
Proof.
  intros Hr. unfold getAttribute, deref, mbind, DOM_bind, dom_bind; simpl.
  by rewrite Hr.
Qed.

Lemma get_id_run r el :
  elements p !! r = Some el →
  get_id r p = Run [ReadId r] (Normal (elem_id el)) p.
Proof.
  intros Hr. unfold get_id, deref, mbind, DOM_bind, dom_bind; simpl.
  by rewrite Hr.
Qed.
End Primitives.

Lemma lookup_lt_length (els : list element) i el :
  els !! i = Some el → i < length els.
Proof. intros H. by eapply lookup_lt_Some. Qed.

Lemma on_mousemove_run p t r e overlay region :
  elements p !! t = Some overlay →
  elements p !! r = Some region →
  outcome (on_mousemove (Some t) r e p) = Normal tt ∧
  final (on_mousemove (Some t) r e p) =
    with_elements (<[t := after_move (host p) e region overlay]> (elements p)) p.
Proof.
  intros Ht Hr. pose proof (lookup_lt_length _ _ _ Ht) as Hlen.
  unfold on_mousemove.
  erewrite bind_normal by (by apply getAttribute_run).
  erewrite bind_normal by (by apply set_style_run).
  erewrite bind_normal.
  2:{ apply set_style_run. simpl. by apply list_lookup_insert_eq. }
  erewrite bind_normal.
  2:{ apply set_style_run. simpl. apply list_lookup_insert_eq.
      by rewrite length_insert. }
  simpl. rewrite !list_insert_insert_eq.
  set (o3 := with_style "display" "block" _).
  assert (∃ el, <[t:=o3]> (elements p) !! r = Some el
                ∧ elem_id el = elem_id region) as (el & Hel & Hid).
  { destruct (decide (t = r)) as [->|Hne].
    - exists o3. split; [by apply list_lookup_insert_eq|].
      rewrite Ht in Hr. by injection Hr as <-.
    - exists region. by rewrite list_lookup_insert_ne. }
  erewrite bind_normal by (by apply get_id_run).
  erewrite set_innerHTML_run.
  2:{ simpl. by apply list_lookup_insert_eq. }
  simpl. rewrite list_insert_insert_eq, Hid. done.
Qed.

(** Without an overlay the first write of either listener throws, and
    the page is left as it was. *)
Lemma on_mousemove_null p r e region :
  elements p !! r = Some region →
  outcome (on_mousemove None r e p) = Throw TypeError ∧
  final (on_mousemove None r e p) = p.
Proof.
  intros Hr. unfold on_mousemove.
  erewrite bind_normal by (by apply getAttribute_run).
  erewrite bind_throw by apply set_style_null. done.
Qed.

Lemma on_mouseleave_null p :
  outcome (on_mouseleave None p) = Throw TypeError ∧
  final (on_mouseleave None p) = p.
Proof. unfold on_mouseleave. by rewrite set_style_null. Qed.

Lemma on_mouseleave_run p t overlay :
  elements p !! t = Some overlay →
  outcome (on_mouseleave (Some t) p) = Normal tt ∧
  final (on_mouseleave (Some t) p) =
    with_elements (<[t := after_leave overlay]> (elements p)) p.
Proof.
  intros Ht. unfold on_mouseleave. by erewrite set_style_run.
Qed.

Lemma getElementById_run id p :
  getElementById id p =
  Run [CallGetElementById id]
      (Normal (fst <$> list_find (λ el, elem_id el = id) (elements p))) p.
Proof. reflexivity. Qed.

Lemma querySelectorAll_run selector p :
  querySelectorAll selector p =
  Run [CallQuerySelectorAll selector]
      (Normal (select_tag selector 0 (elements p))) p.
Proof. reflexivity. Qed.

Lemma declare_const_run name b p :
  declare_const name b p =
  Run [] (Normal tt) (with_bindings (bindings p ++ [(name, b)]) p).
Proof. reflexivity. Qed.

Lemma addEventListener_run target type cb p :
  addEventListener target type cb p =
  Run [CallAddEventListener target type] (Normal tt)
      (with_listeners (listeners p ++ [Registration target type cb]) p).
Proof. reflexivity. Qed.

Lemma forEach_register tooltip paths p :
  forEach paths (λ state,
    addEventListener state Mousemove (MoveClosure tooltip state);;
    addEventListener state Mouseleave (LeaveClosure tooltip)) p
  = Run (registration_calls paths) (Normal tt)
        (with_listeners (listeners p ++ script_listeners tooltip paths) p).
Proof.
  revert p. induction paths as [|state paths IH]; intros p.
  - simpl. unfold mret, DOM_ret, dom_ret, with_listeners.
    rewrite app_nil_r. by destruct p.
  - simpl forEach. erewrite bind_normal.
    2:{ erewrite bind_normal by apply addEventListener_run.
        rewrite addEventListener_run. reflexivity. }
    rewrite IH. simpl. unfold with_listeners; simpl.
    by rewrite <- !app_assoc.
Qed.

Lemma check_declarable_run name p :
  ¬ declared name p → check_declarable name p = Run [] (Normal tt) p.
Proof.
  intros Hfree. unfold check_declarable, mbind, DOM_bind, dom_bind. simpl.
  by rewrite decide_False.
Qed.

Lemma check_declarable_throws name p :
  declared name p → check_declarable name p = Run [] (Throw SyntaxError) p.
Proof.
  intros Hbound. unfold check_declarable, mbind, DOM_bind, dom_bind. simpl.
  by rewrite decide_True.
Qed.

(** A page that already declares [tooltip] rejects the script. *)
Lemma load_script_redeclared p :
  declared "tooltip" p → load_script p = Run [] (Throw SyntaxError) p.
Proof.
  intros Hbound. unfold load_script.
  by erewrite bind_throw by (by apply check_declarable_throws).
Qed.

Lemma not_declared_nil name p : bindings p = [] → ¬ declared name p.
Proof. unfold declared. intros ->. simpl. by intros ?%elem_of_nil. Qed.

Lemma load_script_run p :
  ¬ declared "tooltip" p →
  load_script p =
  Run (CallGetElementById "tooltip" :: CallQuerySelectorAll "path"
         :: registration_calls (found_paths p))
      (Normal tt)
      {| host := host p;
         elements := elements p;
         listeners := listeners p
                      ++ script_listeners (found_tooltip p) (found_paths p);
         bindings := bindings p ++ [("tooltip", BElement (found_tooltip p))] |}.
Proof.
  intros Hfree. unfold load_script.
  erewrite bind_normal by (by apply check_declarable_run).
  erewrite bind_normal by apply getElementById_run.
  erewrite bind_normal by apply declare_const_run.
  erewrite bind_normal by apply querySelectorAll_run.
  rewrite forEach_register. reflexivity.
Qed.

Lemma select_tag_bounds tag i els r :
  r ∈ select_tag tag i els →
  i ≤ r ∧ ∃ el, els !! (r - i) = Some el ∧ tagName el = tag.
Proof.
  revert i. induction els as [|el els IH]; intros i; simpl.
  - by intros ?%elem_of_nil.
  - intros Hr.
    assert (r = i ∧ tagName el = tag ∨ r ∈ select_tag tag (S i) els)
      as [[-> Htag]|Hin].
    { destruct (decide (tagName el = tag)); [|by right].
      apply elem_of_cons in Hr as [->|?]; [by left|by right]. }
    + split; [lia|]. exists el. by rewrite Nat.sub_diag.
    + apply IH in Hin as (Hle & el' & Hel' & Htag').
      split; [lia|]. exists el'. split; [|done].
      by replace (r - i) with (S (r - S i)) by lia.
Qed.

Lemma select_tag_complete tag i els k el :
  els !! k = Some el → tagName el = tag → i + k ∈ select_tag tag i els.
Proof.
  revert i k. induction els as [|el' els IH]; intros i k; simpl; [done|].
  destruct k as [|k]; simpl.
  - intros [= ->] Htag. rewrite decide_True by done.
    rewrite Nat.add_0_r. apply elem_of_cons. by left.
  - intros Hk Htag. replace (i + S k) with (S i + k) by lia.
    destruct (decide (tagName el' = tag)).
    + apply elem_of_cons. right. by apply IH.
    + by apply IH.
Qed.

Lemma select_tag_NoDup tag i els : NoDup (select_tag tag i els).
Proof.
  revert i. induction els as [|el els IH]; intros i; simpl.
  - constructor.
  - destruct (decide (tagName el = tag)); [|apply IH].
    constructor; [|apply IH].
    intros Hin%select_tag_bounds. lia.
Qed.

Lemma found_paths_spec p r :
  r ∈ found_paths p ↔ ∃ el, elements p !! r = Some el ∧ tagName el = "path".
Proof.
  unfold found_paths. split.
  - intros (_ & el & Hel & Htag)%select_tag_bounds.
    rewrite Nat.sub_0_r in Hel. eauto.
  - intros (el & Hel & Htag).
    by apply (select_tag_complete "path" 0 _ r el).
Qed.

(** ** Which listeners an event reaches *)

Lemma callbacks_for_absent tooltip paths r type :
  r ∉ paths → callbacks_for r type (script_listeners tooltip paths) = [].
Proof.
  unfold callbacks_for. induction paths as [|state paths IH]; [done|].
  intros Hr. apply not_elem_of_cons in Hr as [Hne Hr]. simpl.
  rewrite !filter_cons_False by (simpl; intros [??]; congruence).
  by apply IH.
Qed.

Lemma callbacks_for_move tooltip paths r :
  NoDup paths → r ∈ paths →
  callbacks_for r Mousemove (script_listeners tooltip paths)
  = [MoveClosure tooltip r].
Proof.
  unfold callbacks_for. induction paths as [|state paths IH]; intros Hnd Hr.
  - by apply elem_of_nil in Hr.
  - apply NoDup_cons in Hnd as [Hfresh Hnd]. simpl.
    destruct (decide (state = r)) as [->|Hne].
    + rewrite filter_cons_True by done.
      rewrite filter_cons_False by (simpl; intros [??]; congruence).
      simpl. f_equal. by apply (callbacks_for_absent tooltip paths r Mousemove).
    + rewrite !filter_cons_False by (simpl; intros [??]; congruence).
      apply IH; [done|]. apply elem_of_cons in Hr as [->|?]; done.
Qed.

Lemma callbacks_for_leave tooltip paths r :
  NoDup paths → r ∈ paths →
  callbacks_for r Mouseleave (script_listeners tooltip paths)
  = [LeaveClosure tooltip].
Proof.
  unfold callbacks_for. induction paths as [|state paths IH]; intros Hnd Hr.
  - by apply elem_of_nil in Hr.
  - apply NoDup_cons in Hnd as [Hfresh Hnd]. simpl.
    destruct (decide (state = r)) as [->|Hne].
    + rewrite filter_cons_False by (simpl; intros [??]; congruence).
      rewrite filter_cons_True by done.
      simpl. f_equal. by apply (callbacks_for_absent tooltip paths r Mouseleave).
    + rewrite !filter_cons_False by (simpl; intros [??]; congruence).
      apply IH; [done|]. apply elem_of_cons in Hr as [->|?]; done.
Qed.

Lemma load_script_installed p t :
  ¬ declared "tooltip" p →
  listeners p = [] →
  found_tooltip p = Some t →
  installed t (found_paths p) (final (load_script p)).
Proof.
  intros Hfree Hnil Ht. rewrite load_script_run by done; simpl. split; simpl.
  - by rewrite Hnil, Ht.
  - apply select_tag_NoDup.
  - unfold found_tooltip in Ht.
    destruct (list_find _ _) as [[i el]|] eqn:Hfind; [|done].
    injection Ht as <-. apply list_find_Some in Hfind as (Hi & _). eauto.
  - intros r (el & Hel & _)%found_paths_spec. eauto.
Qed.

Lemma demo_installed h : installed 0 [1; 2] (demo_page h).
Proof.
  apply (load_script_installed (demo_document h) 0); [|done..].
  by apply not_declared_nil.
Qed.

Lemma installed_with_elements t paths p els :
  installed t paths p →
  length els = length (elements p) →
  installed t paths (with_elements els p).
Proof.
  intros [Hl Hnd Ht Hrs] Hlen. split; simpl; [done|done| |].
  - apply lookup_lt_is_Some. rewrite Hlen. by apply lookup_lt_is_Some.
  - intros r Hr. apply lookup_lt_is_Some. rewrite Hlen.
    apply lookup_lt_is_Some. by apply Hrs.
Qed.

Lemma dispatch_move t paths p r e overlay region :
  installed t paths p → r ∈ paths →
  elements p !! t = Some overlay →
  elements p !! r = Some region →
  dispatch r Mousemove e p =
  with_elements (<[t := after_move (host p) e region overlay]> (elements p)) p.
Proof.
  intros [Hl Hnd _ _] Hr Ht Hreg. unfold dispatch.
  rewrite Hl, callbacks_for_move by done. simpl.
  by destruct (on_mousemove_run p t r e overlay region) as [_ ->].
Qed.

Lemma dispatch_leave t paths p r e overlay :
  installed t paths p → r ∈ paths →
  elements p !! t = Some overlay →
  dispatch r Mouseleave e p =
  with_elements (<[t := after_leave overlay]> (elements p)) p.
Proof.
  intros [Hl Hnd _ _] Hr Ht. unfold dispatch.
  rewrite Hl, callbacks_for_leave by done. simpl.
  by destruct (on_mouseleave_run p t overlay) as [_ ->].
Qed.

Lemma dispatch_elsewhere t paths p r type e :
  installed t paths p → r ∉ paths → dispatch r type e p = p.
Proof.
  intros [Hl _ _ _] Hr. unfold dispatch.
  by rewrite Hl, callbacks_for_absent.
Qed.

Lemma shown_block markup el :
  shown (with_innerHTML markup (with_style "display" "block" el)).
Proof. unfold shown. simpl. by rewrite lookup_insert_eq. Qed.

Lemma after_move_left h e region overlay :
  style (after_move h e region overlay) !! "left" = Some (pixels (pageX e)).
Proof.
  unfold after_move. simpl.
  rewrite lookup_insert_ne by done. rewrite lookup_insert_ne by done.
  apply lookup_insert_eq.
Qed.

Lemma after_move_top h e region overlay :
  style (after_move h e region overlay) !! "top" = Some (pixels (pageY e)).
Proof.
  unfold after_move. simpl.
  rewrite lookup_insert_ne by done. apply lookup_insert_eq.
Qed.

Lemma after_move_display h e region overlay :
  style (after_move h e region overlay) !! "display" = Some "block".
Proof. unfold after_move. simpl. apply lookup_insert_eq. Qed.

Lemma after_leave_display overlay :
  style (after_leave overlay) !! "display" = Some "none".
Proof. unfold after_leave. simpl. apply lookup_insert_eq. Qed.

Lemma after_leave_style overlay prop :
  prop ≠ "display" →
  style (after_leave overlay) !! prop = style overlay !! prop.
Proof. intros Hprop. unfold after_leave. simpl. by rewrite lookup_insert_ne. Qed.

(** ** The text of plain strings, and lengths in pixels *)

Lemma plain_text_app s1 s2 :
  plain_text (s1 +:+ s2) = plain_text s1 && plain_text s2.
Proof.
  induction s1 as [|c s1 IH]; simpl; [done|].
  by rewrite IH, andb_assoc.
Qed.

Lemma text_of_plain s : plain_text s = true → text_of_markup s = Some s.
Proof.
  unfold text_of_markup. induction s as [|c s IH]; simpl; [done|].
  intros [Hc Hs]%andb_true_iff. apply negb_true_iff in Hc.
  rewrite decide_False.
  - rewrite Hc, IH by done. done.
  - intros ->. by vm_compute in Hc.
Qed.

Lemma strip_px_app s : strip_px (s +:+ "px") = Some s.
Proof.
  induction s as [|c s IH]; [done|].
  change (String c s +:+ "px") with (String c (s +:+ "px")).
  cbn [strip_px]. rewrite decide_False.
  - by rewrite IH.
  - intros [= _ Hs]. destruct s as [|? [|??]]; discriminate.
Qed.

Lemma int_of_decimal n :
  NilZero.int_of_string (decimal n) = Some (Z.to_int n).
Proof.
  unfold decimal. apply NilZero.isi.
  - destruct n as [|q|q]; simpl; try discriminate.
    intros [= Hq]. by apply (DecimalPos.Unsigned.to_uint_nonnil q).
  - destruct n as [|q|q]; simpl; try discriminate.
    intros [= Hq]. by apply (DecimalPos.Unsigned.to_uint_nonnil q).
Qed.

Lemma px_value_decimal n : px_value (decimal n +:+ "px") = Some n.
Proof.
  unfold px_value. rewrite strip_px_app. simpl.
  rewrite int_of_decimal. simpl. by rewrite DecimalZ.of_to.
Qed.

(** ** Whole numbers up to [2 ^ 53] *)

Lemma odd_part_le q : (Zpos (odd_part q) ≤ Zpos q)%Z.
Proof. induction q as [q IH|q IH|]; simpl; lia. Qed.

Lemma is_double_int n : (Z.abs n ≤ 2 ^ 53)%Z → is_double (Int n) = true.
Proof.
  intros Hn.
  assert (∀ q, (Zpos q ≤ 2 ^ 53)%Z →
    ((Zpos (odd_part q) <? 2 ^ 53)%Z && (Zpos q <? 2 ^ 1024)%Z) = true) as Hq.
  { intros q Hle. apply andb_true_iff. split; apply Z.ltb_lt.
    - destruct (decide (Zpos q = 2 ^ 53)%Z) as [Heq|Hne].
      + assert (q = Z.to_pos (2 ^ 53)) as -> by lia. by vm_compute.
      + pose proof (odd_part_le q). lia.
    - assert (2 ^ 53 < 2 ^ 1024)%Z by (by apply Z.pow_lt_mono_r). lia. }
  destruct n as [|q|q]; [done|apply Hq; lia..].
Qed.

(** Sums that stay within [2 ^ 53] are exact. *)
Lemma number_add_int x y :
  (Z.abs (x + y) ≤ 2 ^ 53)%Z → number_add (Int x) (Int y) = Int (x + y).
Proof.
  intros Hs. unfold number_add, to_dyadic.
  replace (x * 2 ^ (0 - Z.min 0 0) + y * 2 ^ (0 - Z.min 0 0))%Z
    with (x + y)%Z by (change (2 ^ (0 - Z.min 0 0))%Z with 1%Z; lia).
  change (Z.min 0 0) with 0%Z.
  assert (canon ((x + y)%Z, 0%Z) = Int (x + y)) as Hcanon.
  { unfold canon. destruct (x + y)%Z as [|q|q]; [done|..];
      change (0 <=? 0)%Z with true; cbv iota; f_equal; lia. }
  unfold round, representable. rewrite Hcanon.
  by rewrite is_double_int.
Qed.

Lemma number_to_string_int n :
  (Z.abs n ≤ 2 ^ 53)%Z → number_to_string (Int n) = decimal n.
Proof.
  intros Hn. unfold number_to_string.
  by rewrite (proj2 (Z.leb_le _ _) Hn).
Qed.

Lemma pixels_int x :
  (Z.abs (x + 10) ≤ 2 ^ 53)%Z → pixels (Int x) = decimal (x + 10) +:+ "px".
Proof.
  intros Hx. unfold pixels, js_add, ToNumber, ToString.
  by rewrite number_add_int, number_to_string_int.
Qed.

Lemma px_value_pixels x :
  (Z.abs (x + 10) ≤ 2 ^ 53)%Z → px_value (pixels (Int x)) = Some (x + 10)%Z.
Proof. intros Hx. by rewrite pixels_int, px_value_decimal. Qed.

(** What a move over a region that has a value does to the overlay. *)
Lemma dispatch_move_value p t paths overlay r e region I V :
  installed t paths p →
  elements p !! t = Some overlay →
  r ∈ paths →
  elements p !! r = Some region →
  elem_id region = I →
  attributes region !! "data-inflation" = Some V →
  ∃ overlay',
    elements (dispatch r Mousemove e p) !! t = Some overlay' ∧
    innerHTML overlay' = I +:+ ": " +:+ V ∧
    shown overlay' ∧
    (plain_text I = true → plain_text V = true →
     textContent overlay' = Some (I +:+ ": " +:+ V)).
Proof.
  intros Hinstalled Hoverlay Hr Hregion HI HV.
  erewrite dispatch_move by done. simpl.
  eexists. split.
  { apply list_lookup_insert_eq. by eapply lookup_lt_Some. }
  unfold textContent, after_move, region_value. simpl. rewrite HI, HV. simpl.
  split; [done|]. split; [apply shown_block|].
  intros HpI HpV. apply text_of_plain.
  rewrite !plain_text_app, HpI, HpV. done.
Qed.

(** * The claims *)

Section Loaded.
Context (p : page) (t : ref) (paths : list ref) (overlay : element).
Context (Hinstalled : installed t paths p).
Context (Hoverlay : elements p !! t = Some overlay).

(** C1, as amended: a [mousemove] over the region [r] with id [I] and
    data value [V] assigns exactly the string ["I: V"] to the overlay's
    [innerHTML] and sets its display to [block]; the text the overlay
    then holds is exactly ["I: V"] whenever [I] and [V] are free of
    markup characters. *)
Theorem mousemove_sets_markup r e region I V :
  r ∈ paths →
  elements p !! r = Some region →
  elem_id region = I →
  attributes region !! "data-inflation" = Some V →
  ∃ overlay',
    elements (dispatch r Mousemove e p) !! t = Some overlay' ∧
    innerHTML overlay' = I +:+ ": " +:+ V ∧
    shown overlay' ∧
    (plain_text I = true → plain_text V = true →
     textContent overlay' = Some (I +:+ ": " +:+ V)).
Proof.
  intros Hr Hregion HI HV.
  by apply (dispatch_move_value p t paths overlay r e region).
Qed.

(** C2, as amended: a [mousemove] at whole page coordinates [(x, y)]
    with [0 <= x, y <= 2 ^ 53 - 10] sets the overlay's [left] to
    [x + 10] pixels and its [top] to [y + 10] pixels: the decimal
    digits of the sum followed by ["px"].  (Beyond that range the sum
    is rounded to the nearest double.) *)
Theorem mousemove_position r x y region :
  r ∈ paths →
  elements p !! r = Some region →
  (0 ≤ x ≤ 2 ^ 53 - 10)%Z → (0 ≤ y ≤ 2 ^ 53 - 10)%Z →
  ∃ overlay',
    elements (dispatch r Mousemove (event_at x y) p) !! t = Some overlay' ∧
    style overlay' !! "left" = Some (decimal (x + 10) +:+ "px") ∧
    style overlay' !! "top" = Some (decimal (y + 10) +:+ "px") ∧
    style overlay' !! "left" ≫= px_value = Some (x + 10)%Z ∧
    style overlay' !! "top" ≫= px_value = Some (y + 10)%Z.
Proof.
  intros Hr Hregion Hx Hy.
  erewrite dispatch_move by done. simpl.
  eexists. split.
  { apply list_lookup_insert_eq. by eapply lookup_lt_Some. }
  rewrite after_move_left, after_move_top. simpl.
  rewrite !pixels_int by lia. by rewrite !px_value_decimal.
Qed.

(** C3: whatever the overlay looked like, a [mouseleave] on a region
    sets its display to [none]. *)
Theorem mouseleave_hides r e :
  r ∈ paths →
  ∃ overlay',
    elements (dispatch r Mouseleave e p) !! t = Some overlay' ∧
    hidden overlay'.
Proof.
  intros Hr. erewrite dispatch_leave by done. simpl.
  eexists. split.
  { apply list_lookup_insert_eq. by eapply lookup_lt_Some. }
  apply after_leave_display.
Qed.

(** C4: a [mouseleave] changes the overlay's display and nothing
    else: its position, its other style properties, its content, its
    tag and attributes are as before, and so are all other elements,
    the listener table and the bindings of the page. *)
Theorem mouseleave_frame r e :
  r ∈ paths →
  let p' := dispatch r Mouseleave e p in
  ∃ overlay',
    elements p' !! t = Some overlay' ∧
    style overlay' !! "left" = style overlay !! "left" ∧
    style overlay' !! "top" = style overlay !! "top" ∧
    innerHTML overlay' = innerHTML overlay ∧
    textContent overlay' = textContent overlay ∧
    (∀ prop, prop ≠ "display" → style overlay' !! prop = style overlay !! prop) ∧
    tagName overlay' = tagName overlay ∧
    attributes overlay' = attributes overlay ∧
    (∀ i, i ≠ t → elements p' !! i = elements p !! i) ∧
    length (elements p') = length (elements p) ∧
    listeners p' = listeners p ∧
    bindings p' = bindings p ∧
    host p' = host p.
Proof.
  intros Hr p'. subst p'. erewrite dispatch_leave by done. simpl.
  eexists. split.
  { apply list_lookup_insert_eq. by eapply lookup_lt_Some. }
  rewrite !after_leave_style by done.
  repeat split; try done.
  - intros prop Hprop. by apply after_leave_style.
  - intros i Hi. simpl. by rewrite list_lookup_insert_ne.
  - simpl. by rewrite length_insert.
Qed.

(** C5: two [mouseleave] events in a row leave the page, and so the
    overlay, as one does. *)
Theorem mouseleave_idempotent r1 e1 r2 e2 :
  r1 ∈ paths → r2 ∈ paths →
  dispatch r2 Mouseleave e2 (dispatch r1 Mouseleave e1 p)
  = dispatch r1 Mouseleave e1 p.
Proof.
  intros Hr1 Hr2.
  rewrite (dispatch_leave t paths p r1 e1 overlay) by done.
  assert (t < length (elements p)) as Hlen by by eapply lookup_lt_Some.
  erewrite dispatch_leave; [| |done|].
  2:{ apply installed_with_elements; [done|]. by rewrite length_insert. }
  2:{ simpl. by apply list_lookup_insert_eq. }
  unfold with_elements; simpl. rewrite list_insert_insert_eq.
  unfold after_leave, with_style; simpl. by rewrite insert_insert_eq.
Qed.

(** C6, as amended: over a region [r] that has no [data-inflation]
    attribute, a [mousemove] still shows the overlay, and the string
    assigned to its [innerHTML] is ["<id>: null"] on a host that reads
    a missing attribute as [null], and ["<id>: "] on a host that reads
    it as the empty string; this same string is the text the overlay
    holds whenever the id is free of markup characters. *)
Theorem mousemove_missing_attribute r e region :
  r ∈ paths →
  elements p !! r = Some region →
  attributes region !! "data-inflation" = None →
  ∃ overlay',
    elements (dispatch r Mousemove e p) !! t = Some overlay' ∧
    shown overlay' ∧
    innerHTML overlay' =
      elem_id region +:+ ": " +:+
      match host p with MissingIsNull => "null" | MissingIsEmpty => "" end ∧
    (innerHTML overlay' = elem_id region +:+ ": "
     ∨ innerHTML overlay' = elem_id region +:+ ": null") ∧
    (plain_text (elem_id region) = true →
     textContent overlay' =
       Some (elem_id region +:+ ": " +:+
             match host p with MissingIsNull => "null" | MissingIsEmpty => "" end)) ∧
    (plain_text (elem_id region) = true →
     textContent overlay' = Some (elem_id region +:+ ": ")
     ∨ textContent overlay' = Some (elem_id region +:+ ": null")).
Proof.
  intros Hr Hregion Hmissing.
  erewrite dispatch_move by done. simpl.
  eexists. split.
  { apply list_lookup_insert_eq. by eapply lookup_lt_Some. }
  unfold textContent, after_move, region_value. simpl. rewrite Hmissing.
  split; [apply shown_block|].
  destruct (host p); simpl.
  - split; [done|]. split; [by right|].
    assert (plain_text (elem_id region) = true →
            text_of_markup (elem_id region +:+ ": null")
            = Some (elem_id region +:+ ": null")) as Htext.
    { intros Hplain. apply text_of_plain.
      by rewrite !plain_text_app, Hplain. }
    split; [done|]. intros Hplain. right. by apply Htext.
  - split; [done|]. split; [by left|].
    assert (plain_text (elem_id region) = true →
            text_of_markup (elem_id region +:+ ": ")
            = Some (elem_id region +:+ ": ")) as Htext.
    { intros Hplain. apply text_of_plain.
      by rewrite !plain_text_app, Hplain. }
    split; [done|]. intros Hplain. left. by apply Htext.
Qed.
End Loaded.

Lemma same_document_refl p : same_document p p.
Proof. by split. Qed.

Lemma same_document_trans p1 p2 p3 :
  same_document p1 p2 → same_document p2 p3 → same_document p1 p3.
Proof. intros [??] [??]. split; congruence. Qed.

Lemma same_document_sym p1 p2 : same_document p1 p2 → same_document p2 p1.
Proof. intros [??]. by split. Qed.

Lemma same_document_lookup p1 p2 r el1 el2 :
  same_document p1 p2 →
  elements p1 !! r = Some el1 → elements p2 !! r = Some el2 →
  attributes el1 = attributes el2.
Proof.
  intros [_ Hattrs] H1 H2.
  assert ((attributes <$> elements p1) !! r = (attributes <$> elements p2) !! r)
    as Hr by by rewrite Hattrs.
  rewrite !list_lookup_fmap, H1, H2 in Hr. by injection Hr.
Qed.

Lemma same_document_insert p t el el' :
  elements p !! t = Some el →
  attributes el' = attributes el →
  same_document p (with_elements (<[t := el']> (elements p)) p).
Proof.
  intros Ht Hattrs. split; [done|]. simpl.
  rewrite list_fmap_insert, Hattrs. symmetry. apply list_insert_id.
  by rewrite list_lookup_fmap, Ht.
Qed.

Lemma step_invariant t paths p ev :
  installed t paths p →
  installed t paths (step p ev) ∧ same_document p (step p ev).
Proof.
  intros Hinst. destruct ev as [r type e]. unfold step; simpl.
  destruct (decide (r ∈ paths)) as [Hr|Hr].
  - destruct (installed_overlay _ _ _ Hinst) as [overlay Ho].
    destruct (installed_regions _ _ _ Hinst r Hr) as [region Hreg].
    destruct type.
    + erewrite dispatch_move by done. split.
      * apply installed_with_elements; [done|]. by rewrite length_insert.
      * by apply (same_document_insert p t overlay).
    + erewrite dispatch_leave by done. split.
      * apply installed_with_elements; [done|]. by rewrite length_insert.
      * by apply (same_document_insert p t overlay).
  - erewrite dispatch_elsewhere by done. split; [done|apply same_document_refl].
Qed.

Lemma run_events_invariant t paths evs p :
  installed t paths p →
  installed t paths (run_events evs p) ∧ same_document p (run_events evs p).
Proof.
  unfold run_events. revert p.
  induction evs as [|ev evs IH]; intros p Hinst; simpl.
  - split; [done|apply same_document_refl].
  - destruct (step_invariant t paths p ev Hinst) as [Hinst' Hsame'].
    destruct (IH _ Hinst') as [Hinst'' Hsame''].
    split; [done|]. by eapply same_document_trans.
Qed.

Lemma run_events_snoc evs ev p :
  run_events (evs ++ [ev]) p = step (run_events evs p) ev.
Proof. unfold run_events. by rewrite fold_left_app. Qed.

Lemma after_move_same_document h e region1 region2 overlay1 overlay2 :
  attributes region1 = attributes region2 →
  overlay_state (after_move h e region1 overlay1)
  = overlay_state (after_move h e region2 overlay2).
Proof.
  intros Hattrs. unfold overlay_state.
  rewrite !after_move_left, !after_move_top, !after_move_display.
  unfold after_move, region_value, elem_id. simpl. by rewrite Hattrs.
Qed.

Lemma visible_content_shown el :
  shown el → visible_content el = Some (innerHTML el).
Proof.
  unfold shown, visible_content. intros ->. by rewrite decide_False.
Qed.

Lemma visible_content_hidden el : hidden el → visible_content el = None.
Proof.
  unfold hidden, visible_content. intros ->. by rewrite decide_True.
Qed.

Lemma step_determined t paths p1 p2 ev :
  installed t paths p1 → installed t paths p2 →
  same_document p1 p2 →
  ev_target ev ∈ paths →
  ∃ o1 o2,
    elements (step p1 ev) !! t = Some o1 ∧
    elements (step p2 ev) !! t = Some o2 ∧
    style o1 !! "display" = style o2 !! "display" ∧
    visible_content o1 = visible_content o2 ∧
    (ev_type ev = Mousemove → overlay_state o1 = overlay_state o2).
Proof.
  intros Hi1 Hi2 Hsame Hr. destruct ev as [r type e]. simpl in Hr.
  unfold step; simpl.
  destruct (installed_overlay _ _ _ Hi1) as [overlay1 Ho1].
  destruct (installed_overlay _ _ _ Hi2) as [overlay2 Ho2].
  destruct (installed_regions _ _ _ Hi1 r Hr) as [region1 Hreg1].
  destruct (installed_regions _ _ _ Hi2 r Hr) as [region2 Hreg2].
  pose proof (same_document_lookup _ _ _ _ _ Hsame Hreg1 Hreg2) as Hattrs.
  pose proof (lookup_lt_Some _ _ _ Ho1) as Hlen1.
  pose proof (lookup_lt_Some _ _ _ Ho2) as Hlen2.
  destruct type.
  - erewrite !dispatch_move by done. simpl.
    destruct Hsame as [<- _].
    pose proof (after_move_same_document (host p1) e region1 region2
                  overlay1 overlay2 Hattrs) as Hstate.
    eexists _, _. split; [by apply list_lookup_insert_eq|].
    split; [by apply list_lookup_insert_eq|].
    split; [by rewrite !after_move_display|].
    split; [|done].
    rewrite !visible_content_shown by apply after_move_display.
    f_equal. exact (f_equal snd Hstate).
  - erewrite !dispatch_leave by done. simpl.
    eexists _, _. split; [by apply list_lookup_insert_eq|].
    split; [by apply list_lookup_insert_eq|].
    split; [by rewrite !after_leave_display|].
    split; [|done].
    by rewrite !visible_content_hidden by apply after_leave_display.
Qed.

Lemma count_registration_calls f paths :
  (∀ r type, f (CallAddEventListener r type) = false) →
  count_calls f (registration_calls paths) = 0.
Proof.
  intros Hf. induction paths as [|state paths IH]; simpl; [done|].
  by rewrite !Hf, IH.
Qed.

Lemma count_registrations_absent r paths :
  r ∉ paths → count_calls (is_registration_on r) (registration_calls paths) = 0.
Proof.
  induction paths as [|state paths IH]; simpl; [done|].
  intros [Hne Hr]%not_elem_of_cons.
  rewrite bool_decide_eq_false_2 by done. simpl. by apply IH.
Qed.

Lemma count_registrations_on r paths :
  NoDup paths → r ∈ paths →
  count_calls (is_registration_on r) (registration_calls paths) = 2.
Proof.
  induction paths as [|state paths IH]; intros Hnd Hr.
  - by apply elem_of_nil in Hr.
  - apply NoDup_cons in Hnd as [Hfresh Hnd]. simpl.
    destruct (decide (state = r)) as [->|Hne].
    + rewrite bool_decide_eq_true_2 by done. simpl.
      by rewrite count_registrations_absent.
    + rewrite bool_decide_eq_false_2 by done. simpl.
      apply IH; [done|]. apply elem_of_cons in Hr as [->|?]; done.
Qed.

Lemma listeners_on_other tooltip paths state :
  state ∉ paths →
  filter (λ g, reg_target g = state) (script_listeners tooltip paths) = [].
Proof.
  induction paths as [|s paths IH]; [done|].
  intros [Hne Hout]%not_elem_of_cons. simpl.
  rewrite !filter_cons_False by (simpl; congruence). by apply IH.
Qed.

Lemma listeners_on_region tooltip paths state :
  NoDup paths → state ∈ paths →
  filter (λ g, reg_target g = state) (script_listeners tooltip paths) =
  [ Registration state Mousemove (MoveClosure tooltip state);
    Registration state Mouseleave (LeaveClosure tooltip) ].
Proof.
  induction paths as [|s paths IH]; intros Hnd Hin.
  - by apply elem_of_nil in Hin.
  - apply NoDup_cons in Hnd as [Hfresh Hnd]. simpl.
    destruct (decide (s = state)) as [->|Hne].
    + rewrite !filter_cons_True by done. do 2 f_equal.
      by apply listeners_on_other.
    + rewrite !filter_cons_False by (simpl; congruence).
      apply IH; [done|]. apply elem_of_cons in Hin as [->|?]; done.
Qed.

(** C7, as amended: after a sequence of pointer events the page is the
    one the last event's listener makes of the page reached before it,
    and the overlay's visibility depends on that last event only:
    shown after a move, hidden after a leave, whatever the earlier
    events and the overlay's first state.  After a move its position
    and content depend on that move only; after a leave they are the
    ones reached before it. *)
Theorem last_event_wins t paths p1 p2 evs1 evs2 ev :
  installed t paths p1 → installed t paths p2 →
  same_document p1 p2 →
  ev_target ev ∈ paths →
  run_events (evs1 ++ [ev]) p1 = step (run_events evs1 p1) ev ∧
  ∃ before o1 o2,
    elements (run_events evs1 p1) !! t = Some before ∧
    elements (run_events (evs1 ++ [ev]) p1) !! t = Some o1 ∧
    elements (run_events (evs2 ++ [ev]) p2) !! t = Some o2 ∧
    style o1 !! "display" =
      Some (match ev_type ev with Mousemove => "block" | Mouseleave => "none" end) ∧
    style o1 !! "display" = style o2 !! "display" ∧
    (ev_type ev = Mousemove → overlay_state o1 = overlay_state o2) ∧
    (ev_type ev = Mouseleave →
     style o1 !! "left" = style before !! "left" ∧
     style o1 !! "top" = style before !! "top" ∧
     innerHTML o1 = innerHTML before).
Proof.
  intros Hi1 Hi2 Hsame Hr. split; [apply run_events_snoc|].
  rewrite !run_events_snoc.
  destruct (run_events_invariant t paths evs1 p1 Hi1) as [Hi1' Hs1].
  destruct (run_events_invariant t paths evs2 p2 Hi2) as [Hi2' Hs2].
  assert (same_document (run_events evs1 p1) (run_events evs2 p2)) as Hsame'.
  { apply (same_document_trans _ p1); [by apply same_document_sym|].
    by apply (same_document_trans _ p2). }
  destruct (installed_overlay _ _ _ Hi1') as [before Hbefore].
  destruct (step_determined t paths _ _ ev Hi1' Hi2' Hsame' Hr)
    as (o1 & o2 & Ho1 & Ho2 & Hdisplay & _ & Hmove).
  exists before, o1, o2. do 3 (split; [done|]).
  destruct ev as [r type e]. simpl in Hr. unfold step in Ho1. simpl in Ho1.
  pose proof (lookup_lt_Some _ _ _ Hbefore) as Hlen.
  destruct (installed_regions _ _ _ Hi1' r Hr) as [region Hreg].
  destruct type; simpl.
  - rewrite (dispatch_move t paths _ r e before region) in Ho1 by done.
    simpl in Ho1. rewrite list_lookup_insert_eq in Ho1 by done.
    injection Ho1 as <-.
    split; [apply after_move_display|]. by repeat split.
  - rewrite (dispatch_leave t paths _ r e before) in Ho1 by done.
    simpl in Ho1. rewrite list_lookup_insert_eq in Ho1 by done.
    injection Ho1 as <-.
    split; [apply after_leave_display|]. split; [done|]. split; [done|].
    intros _. by rewrite !after_leave_style.
Qed.

Lemma found_tooltip_spec p :
  match found_tooltip p with
  | Some t =>
      (∃ el, elements p !! t = Some el ∧ elem_id el = "tooltip") ∧
      ∀ j el, j < t → elements p !! j = Some el → elem_id el ≠ "tooltip"
  | None => ∀ j el, elements p !! j = Some el → elem_id el ≠ "tooltip"
  end.
Proof.
  unfold found_tooltip.
  destruct (list_find _ _) as [[t el]|] eqn:Hfind; simpl.
  - apply list_find_Some in Hfind as (Ht & Hid & Hfirst).
    split; [eauto|]. intros j el' Hj Hel'. by apply (Hfirst j).
  - apply list_find_None in Hfind. rewrite Forall_forall in Hfind.
    intros j el Hel. apply Hfind. by eapply list_elem_of_lookup_2.
Qed.

(** C8, as amended: on a page that does not declare [tooltip] yet,
    loading the script looks the overlay up once (the first element
    with that id, or none), enumerates the regions once, registers one
    [mousemove] and one [mouseleave] listener on every [path] element
    and none anywhere else, writes to no element, leaves every element
    as it was, and binds no function at the top level. *)
Theorem load_script_initialises p :
  ¬ declared "tooltip" p →
  let r := load_script p in
  outcome r = Normal tt ∧
  count_calls is_element_lookup (calls r) = 1 ∧
  count_calls is_enumeration (calls r) = 1 ∧
  count_calls is_mutation (calls r) = 0 ∧
  elements (final r) = elements p ∧
  (∃ (tooltip : option ref) (added : list registration),
     match tooltip with
     | Some t =>
         (∃ el, elements p !! t = Some el ∧ elem_id el = "tooltip") ∧
         ∀ j el, j < t → elements p !! j = Some el → elem_id el ≠ "tooltip"
     | None => ∀ j el, elements p !! j = Some el → elem_id el ≠ "tooltip"
     end ∧
     listeners (final r) = (listeners p ++ added)%list ∧
     ∀ state,
       ((∃ el, elements p !! state = Some el ∧ tagName el = "path") →
        count_calls (is_registration_on state) (calls r) = 2 ∧
        filter (λ g, reg_target g = state) added =
          [ Registration state Mousemove (MoveClosure tooltip state);
            Registration state Mouseleave (LeaveClosure tooltip) ]) ∧
       (¬ (∃ el, elements p !! state = Some el ∧ tagName el = "path") →
        count_calls (is_registration_on state) (calls r) = 0 ∧
        filter (λ g, reg_target g = state) added = [])) ∧
  (∃ new_bindings : list (string * binding),
     bindings (final r) = (bindings p ++ new_bindings)%list ∧
     Forall (λ nb, callable nb.2 = false) new_bindings).
Proof.
  intros Hfree r. subst r. rewrite load_script_run by done. simpl.
  split; [done|].
  rewrite (count_registration_calls is_element_lookup) by done.
  rewrite (count_registration_calls is_enumeration) by done.
  rewrite (count_registration_calls is_mutation) by done.
  do 4 (split; [done|]). split.
  - exists (found_tooltip p). eexists.
    split; [apply found_tooltip_spec|]. split; [done|]. intros state.
    pose proof (select_tag_NoDup "path" 0 (elements p)) as Hnd.
    fold (found_paths p) in Hnd. rewrite <- found_paths_spec. split.
    + intros Hin. split; [by apply count_registrations_on|].
      by apply listeners_on_region.
    + intros Hout. split; [by apply count_registrations_absent|].
      by apply listeners_on_other.
  - eexists. split; [done|]. by repeat constructor.
Qed.

(** C9: the overlay state a [mousemove] produces is a function of the
    event's page coordinates, the region's id and the value read from
    the region: two runs that agree on these end with the same left,
    top, display and content, whatever the pages and overlays were
    before and whatever events were dispatched earlier. *)
Theorem mousemove_deterministic
    t1 paths1 p1 r1 region1 e1 evs1
    t2 paths2 p2 r2 region2 e2 evs2 :
  installed t1 paths1 p1 → installed t2 paths2 p2 →
  r1 ∈ paths1 → r2 ∈ paths2 →
  elements p1 !! r1 = Some region1 → elements p2 !! r2 = Some region2 →
  pageX e1 = pageX e2 → pageY e1 = pageY e2 →
  elem_id region1 = elem_id region2 →
  region_value (host p1) region1 = region_value (host p2) region2 →
  ∃ o1 o2,
    elements (dispatch r1 Mousemove e1 (run_events evs1 p1)) !! t1 = Some o1 ∧
    elements (dispatch r2 Mousemove e2 (run_events evs2 p2)) !! t2 = Some o2 ∧
    overlay_state o1 = overlay_state o2 ∧
    textContent o1 = textContent o2.
Proof.
  intros Hi1 Hi2 Hr1 Hr2 Hreg1 Hreg2 Hx Hy Hid Hval.
  destruct (run_events_invariant t1 paths1 evs1 p1 Hi1) as [Hi1' Hs1].
  destruct (run_events_invariant t2 paths2 evs2 p2 Hi2) as [Hi2' Hs2].
  destruct (installed_overlay _ _ _ Hi1') as [overlay1 Ho1].
  destruct (installed_overlay _ _ _ Hi2') as [overlay2 Ho2].
  destruct (installed_regions _ _ _ Hi1' r1 Hr1) as [region1' Hreg1'].
  destruct (installed_regions _ _ _ Hi2' r2 Hr2) as [region2' Hreg2'].
  pose proof (same_document_lookup _ _ _ _ _ Hs1 Hreg1 Hreg1') as Ha1.
  pose proof (same_document_lookup _ _ _ _ _ Hs2 Hreg2 Hreg2') as Ha2.
  destruct Hs1 as [Hh1 _]. destruct Hs2 as [Hh2 _].
  rewrite (dispatch_move t1 paths1 _ r1 e1 overlay1 region1') by done.
  rewrite (dispatch_move t2 paths2 _ r2 e2 overlay2 region2') by done.
  simpl. eexists _, _.
  split; [apply list_lookup_insert_eq; by eapply lookup_lt_Some|].
  split; [apply list_lookup_insert_eq; by eapply lookup_lt_Some|].
  unfold overlay_state, textContent.
  rewrite !after_move_left, !after_move_top, !after_move_display.
  unfold region_value, elem_id in Hid, Hval.
  unfold after_move, region_value, elem_id. simpl.
  by rewrite <- Hh1, <- Hh2, <- Ha1, <- Ha2, Hx, Hy, Hid, Hval.
Qed.

(** C10: the region's attribute is read when the event is dispatched:
    once other code of the page has set it to [V'], the next
    [mousemove] over the region puts [V'] in the overlay. *)
Theorem attribute_read_at_dispatch t paths p overlay r region e V' :
  installed t paths p → r ∈ paths →
  elements p !! t = Some overlay →
  elements p !! r = Some region →
  ∃ overlay',
    elements (dispatch r Mousemove e (setAttribute r "data-inflation" V' p)) !! t
      = Some overlay' ∧
    innerHTML overlay' = elem_id region +:+ ": " +:+ V' ∧
    shown overlay' ∧
    (plain_text (elem_id region) = true → plain_text V' = true →
     textContent overlay' = Some (elem_id region +:+ ": " +:+ V')).
Proof.
  intros Hinst Hr Ho Hreg.
  set (p' := setAttribute r "data-inflation" V' p).
  assert (installed t paths p') as Hinst'.
  { unfold p', setAttribute.
    apply installed_with_elements; [done|]. by rewrite length_alter. }
  assert (elements p' !! r = Some (with_attribute "data-inflation" V' region))
    as Hreg'.
  { unfold p', setAttribute, with_elements. cbn [elements].
    by rewrite list_lookup_alter_eq, Hreg. }
  destruct (installed_overlay _ _ _ Hinst') as [overlay0 Ho'].
  apply (dispatch_move_value p' t paths overlay0 r e
           (with_attribute "data-inflation" V' region)); try done.
  - unfold elem_id. simpl. by rewrite lookup_insert_ne.
  - simpl. apply lookup_insert_eq.
Qed.

(** ** The claims at concrete pages *)

Lemma escaped_installed : installed 0 [1] escaped_page.
Proof.
  apply (load_script_installed
              (Page MissingIsNull [tooltip_div; path_escaped] [] []) 0);
    [by apply not_declared_nil|done..].
Qed.

Lemma R_and_D_installed h : installed 0 [1] (R_and_D_page h).
Proof.
  apply (load_script_installed
              (Page h [tooltip_div; path_R_and_D] [] []) 0);
    [by apply not_declared_nil|done..].
Qed.

Lemma stale_installed : installed 0 [1; 2] stale_page.
Proof.
  apply (load_script_installed
              (Page MissingIsNull [stale_tooltip; path_CA; path_TX] [] []) 0);
    [by apply not_declared_nil|done..].
Qed.

Lemma region_1 : 1 ∈ [1; 2].
Proof. repeat constructor. Qed.

Lemma region_2 : 2 ∈ [1; 2].
Proof. repeat constructor. Qed.

(** C1 as the specification words it fails: the region [CA] carries the
    value ["&lt;1%"]; after a move over it the overlay's text is
    ["CA: <1%"], not the string ["CA: &lt;1%"]. *)
Lemma mousemove_text_counterexample :
  elem_id path_escaped = "CA" ∧
  attributes path_escaped !! "data-inflation" = Some "&lt;1%" ∧
  ∃ overlay',
    elements (dispatch 1 Mousemove (event_at 100 200) escaped_page) !! 0
      = Some overlay' ∧
    textContent overlay' = Some "CA: <1%" ∧
    textContent overlay' ≠ Some ("CA" +:+ ": " +:+ "&lt;1%").
Proof.
  split; [reflexivity|]. split; [reflexivity|].
  eexists. split; [vm_compute; reflexivity|].
  split; [vm_compute; reflexivity|].
  vm_compute. discriminate.
Qed.

Lemma mousemove_sets_markup_witness :
  installed 0 [1; 2] (demo_page MissingIsNull) ∧
  elements (demo_page MissingIsNull) !! 0 = Some tooltip_div ∧
  1 ∈ [1; 2] ∧
  elements (demo_page MissingIsNull) !! 1 = Some path_CA ∧
  elem_id path_CA = "CA" ∧
  attributes path_CA !! "data-inflation" = Some "3.2%" ∧
  ∃ overlay',
    elements (dispatch 1 Mousemove (event_at 100 200)
                (demo_page MissingIsNull)) !! 0 = Some overlay' ∧
    innerHTML overlay' = "CA" +:+ ": " +:+ "3.2%" ∧
    shown overlay' ∧
    (plain_text "CA" = true → plain_text "3.2%" = true →
     textContent overlay' = Some ("CA" +:+ ": " +:+ "3.2%")).
Proof.
  pose proof (demo_installed MissingIsNull) as Hinst.
  pose proof region_1 as Hr.
  do 6 (split; [first [exact Hinst | exact Hr | reflexivity]|]).
  exact (mousemove_sets_markup (demo_page MissingIsNull) 0 [1; 2] tooltip_div
           Hinst eq_refl 1 (event_at 100 200) path_CA "CA" "3.2%"
           Hr eq_refl eq_refl eq_refl).
Defined.

(** C2 as the specification words it fails: at [pageX = 2 ^ 53 - 1] the
    sum is not a double and is rounded; the overlay's [left] is
    ["9007199254741000px"], one pixel off [x + 10]. *)
Lemma mousemove_position_counterexample :
  let x := (2 ^ 53 - 1)%Z in
  (0 ≤ x)%Z ∧ is_double (Int x) = true ∧
  ∃ overlay',
    elements (dispatch 1 Mousemove (event_at x 0)
                (demo_page MissingIsNull)) !! 0 = Some overlay' ∧
    style overlay' !! "left" = Some "9007199254741000px" ∧
    style overlay' !! "left" ≠ Some (decimal (x + 10) +:+ "px") ∧
    style overlay' !! "left" ≫= px_value ≠ Some (x + 10)%Z.
Proof.
  intros x. split; [by vm_compute|]. split; [by vm_compute|].
  eexists. split; [vm_compute; reflexivity|].
  split; [by vm_compute|]. split; vm_compute; discriminate.
Qed.

Lemma mousemove_position_witness :
  installed 0 [1; 2] (demo_page MissingIsNull) ∧
  elements (demo_page MissingIsNull) !! 0 = Some tooltip_div ∧
  1 ∈ [1; 2] ∧
  elements (demo_page MissingIsNull) !! 1 = Some path_CA ∧
  (0 ≤ 100 ≤ 2 ^ 53 - 10)%Z ∧ (0 ≤ 200 ≤ 2 ^ 53 - 10)%Z ∧
  ∃ overlay',
    elements (dispatch 1 Mousemove (event_at 100 200)
                (demo_page MissingIsNull)) !! 0 = Some overlay' ∧
    style overlay' !! "left" = Some (decimal (100 + 10) +:+ "px") ∧
    style overlay' !! "top" = Some (decimal (200 + 10) +:+ "px") ∧
    style overlay' !! "left" ≫= px_value = Some (100 + 10)%Z ∧
    style overlay' !! "top" ≫= px_value = Some (200 + 10)%Z.
Proof.
  pose proof (demo_installed MissingIsNull) as Hinst.
  pose proof region_1 as Hr.
  assert (0 ≤ 100 ≤ 2 ^ 53 - 10)%Z as Hx by lia.
  assert (0 ≤ 200 ≤ 2 ^ 53 - 10)%Z as Hy by lia.
  do 6 (split; [first [exact Hinst | exact Hr | exact Hx | exact Hy
                      | reflexivity]|]).
  exact (mousemove_position (demo_page MissingIsNull) 0 [1; 2] tooltip_div
           Hinst eq_refl 1 100%Z 200%Z path_CA Hr eq_refl Hx Hy).
Defined.

Lemma mouseleave_hides_witness :
  installed 0 [1; 2] stale_page ∧
  elements stale_page !! 0 = Some stale_tooltip ∧
  2 ∈ [1; 2] ∧
  ∃ overlay',
    elements (dispatch 2 Mouseleave (event_at 3 4) stale_page) !! 0
      = Some overlay' ∧
    hidden overlay'.
Proof.
  pose proof stale_installed as Hinst.
  pose proof region_2 as Hr.
  do 3 (split; [first [exact Hinst | exact Hr | reflexivity]|]).
  exact (mouseleave_hides stale_page 0 [1; 2] stale_tooltip
           Hinst eq_refl 2 (event_at 3 4) Hr).
Defined.

Lemma mouseleave_frame_witness :
  installed 0 [1; 2] stale_page ∧
  elements stale_page !! 0 = Some stale_tooltip ∧
  1 ∈ [1; 2] ∧
  let p' := dispatch 1 Mouseleave (event_at 3 4) stale_page in
  ∃ overlay',
    elements p' !! 0 = Some overlay' ∧
    style overlay' !! "left" = style stale_tooltip !! "left" ∧
    style overlay' !! "top" = style stale_tooltip !! "top" ∧
    innerHTML overlay' = innerHTML stale_tooltip ∧
    textContent overlay' = textContent stale_tooltip ∧
    (∀ prop, prop ≠ "display" →
             style overlay' !! prop = style stale_tooltip !! prop) ∧
    tagName overlay' = tagName stale_tooltip ∧
    attributes overlay' = attributes stale_tooltip ∧
    (∀ i, i ≠ 0 → elements p' !! i = elements stale_page !! i) ∧
    length (elements p') = length (elements stale_page) ∧
    listeners p' = listeners stale_page ∧
    bindings p' = bindings stale_page ∧
    host p' = host stale_page.
Proof.
  pose proof stale_installed as Hinst.
  pose proof region_1 as Hr.
  do 3 (split; [first [exact Hinst | exact Hr | reflexivity]|]).
  exact (mouseleave_frame stale_page 0 [1; 2] stale_tooltip
           Hinst eq_refl 1 (event_at 3 4) Hr).
Defined.

Lemma mouseleave_idempotent_witness :
  installed 0 [1; 2] (demo_page MissingIsNull) ∧
  elements (demo_page MissingIsNull) !! 0 = Some tooltip_div ∧
  1 ∈ [1; 2] ∧ 2 ∈ [1; 2] ∧
  dispatch 2 Mouseleave (event_at 5 6)
    (dispatch 1 Mouseleave (event_at 3 4) (demo_page MissingIsNull))
  = dispatch 1 Mouseleave (event_at 3 4) (demo_page MissingIsNull).
Proof.
  pose proof (demo_installed MissingIsNull) as Hinst.
  pose proof region_1 as Hr1.
  pose proof region_2 as Hr2.
  do 4 (split; [first [exact Hinst | exact Hr1 | exact Hr2 | reflexivity]|]).
  exact (mouseleave_idempotent (demo_page MissingIsNull) 0 [1; 2] tooltip_div
           Hinst eq_refl 1 (event_at 3 4) 2 (event_at 5 6) Hr1 Hr2).
Defined.

(** C6 as the specification words it fails: the region [R&amp;D] has no
    value; after a move over it the overlay's text is ["R&D: null"],
    which is neither ["R&amp;D: "] nor ["R&amp;D: null"]. *)
Lemma missing_attribute_counterexample :
  elem_id path_R_and_D = "R&amp;D" ∧
  attributes path_R_and_D !! "data-inflation" = None ∧
  ∃ overlay',
    elements (dispatch 1 Mousemove (event_at 100 200)
                (R_and_D_page MissingIsNull)) !! 0 = Some overlay' ∧
    shown overlay' ∧
    textContent overlay' = Some "R&D: null" ∧
    ¬ (textContent overlay' = Some (elem_id path_R_and_D +:+ ": ")
       ∨ textContent overlay' = Some (elem_id path_R_and_D +:+ ": null")).
Proof.
  split; [reflexivity|]. split; [reflexivity|].
  eexists. split; [vm_compute; reflexivity|].
  split; [vm_compute; reflexivity|].
  split; [vm_compute; reflexivity|].
  vm_compute. intros [?|?]; discriminate.
Qed.

Lemma mousemove_missing_attribute_witness :
  installed 0 [1; 2] (demo_page MissingIsNull) ∧
  elements (demo_page MissingIsNull) !! 0 = Some tooltip_div ∧
  2 ∈ [1; 2] ∧
  elements (demo_page MissingIsNull) !! 2 = Some path_TX ∧
  attributes path_TX !! "data-inflation" = None ∧
  ∃ overlay',
    elements (dispatch 2 Mousemove (event_at 5 7)
                (demo_page MissingIsNull)) !! 0 = Some overlay' ∧
    shown overlay' ∧
    innerHTML overlay' =
      elem_id path_TX +:+ ": " +:+
      match host (demo_page MissingIsNull) with
      | MissingIsNull => "null"
      | MissingIsEmpty => ""
      end ∧
    (innerHTML overlay' = elem_id path_TX +:+ ": "
     ∨ innerHTML overlay' = elem_id path_TX +:+ ": null") ∧
    (plain_text (elem_id path_TX) = true →
     textContent overlay' =
       Some (elem_id path_TX +:+ ": " +:+
             match host (demo_page MissingIsNull) with
             | MissingIsNull => "null"
             | MissingIsEmpty => ""
             end)) ∧
    (plain_text (elem_id path_TX) = true →
     textContent overlay' = Some (elem_id path_TX +:+ ": ")
     ∨ textContent overlay' = Some (elem_id path_TX +:+ ": null")).
Proof.
  pose proof (demo_installed MissingIsNull) as Hinst.
  pose proof region_2 as Hr.
  do 5 (split; [first [exact Hinst | exact Hr | reflexivity]|]).
  exact (mousemove_missing_attribute (demo_page MissingIsNull) 0 [1; 2]
           tooltip_div Hinst eq_refl 2 (event_at 5 7) path_TX
           Hr eq_refl eq_refl).
Defined.

(** C7 as the specification words it fails: two histories on the same
    page end with the same [mouseleave], and the overlay's content
    after it is the one of the move before, ["CA: 3.2%"] in one and
    ["TX: null"] in the other, and so is its position. *)
Lemma stale_content_counterexample :
  let leave := PointerEvent 1 Mouseleave (event_at 0 0) in
  let evs1 := [PointerEvent 1 Mousemove (event_at 100 200)] in
  let evs2 := [PointerEvent 2 Mousemove (event_at 5 7)] in
  ∃ o1 o2,
    elements (run_events (evs1 ++ [leave]) (demo_page MissingIsNull)) !! 0
      = Some o1 ∧
    elements (run_events (evs2 ++ [leave]) (demo_page MissingIsNull)) !! 0
      = Some o2 ∧
    overlay_state o1 = (Some "110px", Some "210px", Some "none", "CA: 3.2%") ∧
    overlay_state o2 = (Some "15px", Some "17px", Some "none", "TX: null") ∧
    innerHTML o1 ≠ innerHTML o2 ∧
    textContent o1 ≠ textContent o2.
Proof.
  intros leave evs1 evs2.
  eexists _, _. split; [vm_compute; reflexivity|].
  split; [vm_compute; reflexivity|].
  split; [by vm_compute|]. split; [by vm_compute|].
  split; vm_compute; discriminate.
Qed.

Lemma last_event_wins_witness :
  let evs1 := [PointerEvent 1 Mousemove (event_at 100 200)] in
  let evs2 := [PointerEvent 2 Mousemove (event_at 5 7);
               PointerEvent 2 Mouseleave (event_at 0 0)] in
  let ev := PointerEvent 1 Mouseleave (event_at 1 1) in
  installed 0 [1; 2] (demo_page MissingIsNull) ∧
  installed 0 [1; 2] stale_page ∧
  same_document (demo_page MissingIsNull) stale_page ∧
  ev_target ev ∈ [1; 2] ∧
  run_events (evs1 ++ [ev]) (demo_page MissingIsNull)
  = step (run_events evs1 (demo_page MissingIsNull)) ev ∧
  ∃ before o1 o2,
    elements (run_events evs1 (demo_page MissingIsNull)) !! 0 = Some before ∧
    elements (run_events (evs1 ++ [ev]) (demo_page MissingIsNull)) !! 0
      = Some o1 ∧
    elements (run_events (evs2 ++ [ev]) stale_page) !! 0 = Some o2 ∧
    style o1 !! "display" =
      Some (match ev_type ev with Mousemove => "block" | Mouseleave => "none" end) ∧
    style o1 !! "display" = style o2 !! "display" ∧
    (ev_type ev = Mousemove → overlay_state o1 = overlay_state o2) ∧
    (ev_type ev = Mouseleave →
     style o1 !! "left" = style before !! "left" ∧
     style o1 !! "top" = style before !! "top" ∧
     innerHTML o1 = innerHTML before).
Proof.
  intros evs1 evs2 ev.
  pose proof (demo_installed MissingIsNull) as Hi1.
  pose proof stale_installed as Hi2.
  assert (same_document (demo_page MissingIsNull) stale_page) as Hsame
    by (split; reflexivity).
  pose proof region_1 as Hr.
  do 4 (split; [first [exact Hi1 | exact Hi2 | exact Hsame | exact Hr]|]).
  exact (last_event_wins 0 [1; 2] (demo_page MissingIsNull) stale_page
           evs1 evs2 ev Hi1 Hi2 Hsame Hr).
Defined.

(** C8 as the specification words it fails: on a page on which the
    script is already loaded, loading it again is rejected; it makes no
    lookup and registers nothing on the page's [path] elements. *)
Lemma reload_counterexample :
  let p := demo_page MissingIsNull in
  (∃ el, elements p !! 1 = Some el ∧ tagName el = "path") ∧
  outcome (load_script p) = Throw SyntaxError ∧
  calls (load_script p) = [] ∧
  count_calls is_element_lookup (calls (load_script p)) ≠ 1 ∧
  count_calls (is_registration_on 1) (calls (load_script p)) ≠ 2 ∧
  final (load_script p) = p.
Proof.
  intros p. split; [by exists path_CA|].
  assert (declared "tooltip" p) as Hbound by (by vm_compute; left).
  rewrite load_script_redeclared by done. simpl. by repeat split.
Qed.

Lemma load_script_initialises_witness :
  let p := demo_document MissingIsNull in
  let r := load_script p in
  ¬ declared "tooltip" p ∧
  outcome r = Normal tt ∧
  count_calls is_element_lookup (calls r) = 1 ∧
  count_calls is_enumeration (calls r) = 1 ∧
  count_calls is_mutation (calls r) = 0 ∧
  elements (final r) = elements p ∧
  (∃ (tooltip : option ref) (added : list registration),
     match tooltip with
     | Some t =>
         (∃ el, elements p !! t = Some el ∧ elem_id el = "tooltip") ∧
         ∀ j el, j < t → elements p !! j = Some el → elem_id el ≠ "tooltip"
     | None => ∀ j el, elements p !! j = Some el → elem_id el ≠ "tooltip"
     end ∧
     listeners (final r) = (listeners p ++ added)%list ∧
     ∀ state,
       ((∃ el, elements p !! state = Some el ∧ tagName el = "path") →
        count_calls (is_registration_on state) (calls r) = 2 ∧
        filter (λ g, reg_target g = state) added =
          [ Registration state Mousemove (MoveClosure tooltip state);
            Registration state Mouseleave (LeaveClosure tooltip) ]) ∧
       (¬ (∃ el, elements p !! state = Some el ∧ tagName el = "path") →
        count_calls (is_registration_on state) (calls r) = 0 ∧
        filter (λ g, reg_target g = state) added = [])) ∧
  (∃ new_bindings : list (string * binding),
     bindings (final r) = (bindings p ++ new_bindings)%list ∧
     Forall (λ nb, callable nb.2 = false) new_bindings).
Proof.
  intros p r.
  assert (¬ declared "tooltip" p) as Hfree by (by apply not_declared_nil).
  split; [exact Hfree|].
  exact (load_script_initialises p Hfree).
Defined.

Lemma mousemove_deterministic_witness :
  let evs1 := [PointerEvent 2 Mousemove (event_at 5 7)] in
  let evs2 := [PointerEvent 1 Mouseleave (event_at 0 0)] in
  installed 0 [1; 2] (demo_page MissingIsNull) ∧
  installed 0 [1; 2] stale_page ∧
  1 ∈ [1; 2] ∧
  elements (demo_page MissingIsNull) !! 1 = Some path_CA ∧
  elements stale_page !! 1 = Some path_CA ∧
  pageX (event_at 100 200) = pageX (event_at 100 200) ∧
  pageY (event_at 100 200) = pageY (event_at 100 200) ∧
  elem_id path_CA = elem_id path_CA ∧
  region_value (host (demo_page MissingIsNull)) path_CA
  = region_value (host stale_page) path_CA ∧
  ∃ o1 o2,
    elements (dispatch 1 Mousemove (event_at 100 200)
                (run_events evs1 (demo_page MissingIsNull))) !! 0 = Some o1 ∧
    elements (dispatch 1 Mousemove (event_at 100 200)
                (run_events evs2 stale_page)) !! 0 = Some o2 ∧
    overlay_state o1 = overlay_state o2 ∧
    textContent o1 = textContent o2.
Proof.
  intros evs1 evs2.
  pose proof (demo_installed MissingIsNull) as Hi1.
  pose proof stale_installed as Hi2.
  pose proof region_1 as Hr.
  do 9 (split; [first [exact Hi1 | exact Hi2 | exact Hr | reflexivity]|]).
  exact (mousemove_deterministic
           0 [1; 2] (demo_page MissingIsNull) 1 path_CA
           (event_at 100 200) evs1
           0 [1; 2] stale_page 1 path_CA (event_at 100 200) evs2
           Hi1 Hi2 Hr Hr eq_refl eq_refl eq_refl eq_refl eq_refl eq_refl).
Defined.

Lemma attribute_read_at_dispatch_witness :
  installed 0 [1; 2] (demo_page MissingIsNull) ∧
  1 ∈ [1; 2] ∧
  elements (demo_page MissingIsNull) !! 0 = Some tooltip_div ∧
  elements (demo_page MissingIsNull) !! 1 = Some path_CA ∧
  ∃ overlay',
    elements (dispatch 1 Mousemove (event_at 100 200)
                (setAttribute 1 "data-inflation" "4.1%"
                   (demo_page MissingIsNull))) !! 0 = Some overlay' ∧
    innerHTML overlay' = elem_id path_CA +:+ ": " +:+ "4.1%" ∧
    shown overlay' ∧
    (plain_text (elem_id path_CA) = true → plain_text "4.1%" = true →
     textContent overlay' = Some (elem_id path_CA +:+ ": " +:+ "4.1%")).
Proof.
  pose proof (demo_installed MissingIsNull) as Hinst.
  pose proof region_1 as Hr.
  do 4 (split; [first [exact Hinst | exact Hr | reflexivity]|]).
  exact (attribute_read_at_dispatch 0 [1; 2] (demo_page MissingIsNull)
           tooltip_div 1 path_CA (event_at 100 200) "4.1%"
           Hinst Hr eq_refl eq_refl).
Defined.

(** * Further properties of the script *)

(** ** Event handling keeps the structure of the page *)

Lemma same_structure_refl p : same_structure p p.
Proof. by repeat split. Qed.

Lemma same_structure_trans p1 p2 p3 :
  same_structure p1 p2 → same_structure p2 p3 → same_structure p1 p3.
Proof. intros (?&?&?&?) (?&?&?&?). repeat split; congruence. Qed.

Lemma same_structure_insert p r el el' :
  elements p !! r = Some el →
  skeleton el' = skeleton el →
  same_structure p (with_elements (<[r := el']> (elements p)) p).
Proof.
  intros Hr Hsk. repeat split; simpl.
  rewrite list_fmap_insert, Hsk. apply list_insert_id.
  by rewrite list_lookup_fmap, Hr.
Qed.

Lemma bind_structure {A B} (m : DOM A) (f : A → DOM B) p :
  same_structure p (final (m p)) →
  (∀ a, same_structure (final (m p)) (final (f a (final (m p))))) →
  same_structure p (final ((m ≫= f) p)).
Proof.
  intros Hm Hf. unfold mbind, DOM_bind, dom_bind.
  destruct (outcome (m p)) as [a|err]; simpl; [|done].
  by eapply same_structure_trans.
Qed.

Lemma getAttribute_final r name p : final (getAttribute r name p) = p.
Proof.
  unfold getAttribute, deref, mbind, DOM_bind, dom_bind; simpl.
  by destruct (elements p !! r).
Qed.

Lemma get_id_final r p : final (get_id r p) = p.
Proof.
  unfold get_id, deref, mbind, DOM_bind, dom_bind; simpl.
  by destruct (elements p !! r).
Qed.

Lemma set_style_structure target prop value p :
  same_structure p (final (set_style target prop value p)).
Proof.
  destruct target as [r|]; [|apply same_structure_refl].
  destruct (elements p !! r) as [el|] eqn:Hr.
  - erewrite set_style_run by done. simpl.
    by apply (same_structure_insert p r el).
  - unfold set_style, deref, mbind, DOM_bind, dom_bind; simpl.
    rewrite Hr. apply same_structure_refl.
Qed.

Lemma set_innerHTML_structure target markup p :
  same_structure p (final (set_innerHTML target markup p)).
Proof.
  destruct target as [r|]; [|apply same_structure_refl].
  destruct (elements p !! r) as [el|] eqn:Hr.
  - erewrite set_innerHTML_run by done. simpl.
    by apply (same_structure_insert p r el).
  - unfold set_innerHTML, deref, mbind, DOM_bind, dom_bind; simpl.
    rewrite Hr. apply same_structure_refl.
Qed.

Lemma call_structure c e p : same_structure p (final (call c e p)).
Proof.
  destruct c as [tooltip state|tooltip]; simpl.
  - unfold on_mousemove.
    apply bind_structure; [rewrite getAttribute_final; apply same_structure_refl|].
    intros value. generalize (final (getAttribute state "data-inflation" p)).
    clear p. intros p.
    apply bind_structure; [apply set_style_structure|]. intros _.
    generalize (final (set_style tooltip "left"
      (ToString (js_add (js_add (PNum (pageX e)) (PNum (Int 10))) (PStr "px"))) p)).
    clear p. intros p.
    apply bind_structure; [apply set_style_structure|]. intros _.
    generalize (final (set_style tooltip "top"
      (ToString (js_add (js_add (PNum (pageY e)) (PNum (Int 10))) (PStr "px"))) p)).
    clear p. intros p.
    apply bind_structure; [apply set_style_structure|]. intros _.
    generalize (final (set_style tooltip "display" "block" p)).
    clear p. intros p.
    apply bind_structure; [rewrite get_id_final; apply same_structure_refl|].
    intros id. apply set_innerHTML_structure.
  - apply set_style_structure.
Qed.

Lemma invoke_all_structure cs e p : same_structure p (invoke_all cs e p).
Proof.
  revert p. induction cs as [|c cs IH]; intros p; simpl.
  - apply same_structure_refl.
  - eapply same_structure_trans; [apply call_structure|apply IH].
Qed.

Lemma run_events_structure evs p : same_structure p (run_events evs p).
Proof.
  unfold run_events. revert p.
  induction evs as [|ev evs IH]; intros p; simpl.
  - apply same_structure_refl.
  - eapply same_structure_trans; [|apply IH].
    apply invoke_all_structure.
Qed.

Lemma same_structure_lookup p p' i :
  same_structure p p' →
  skeleton <$> elements p' !! i = skeleton <$> elements p !! i.
Proof.
  intros (_ & _ & _ & Hsk). by rewrite <- !list_lookup_fmap, Hsk.
Qed.

(** X7: whatever listeners a page holds, dispatching any sequence of
    events changes neither the listener table nor the bindings, and
    every element keeps its tag and its attributes other than [style]:
    the listeners write to [style] and [innerHTML] only. *)
Theorem events_keep_structure evs p :
  let p' := run_events evs p in
  listeners p' = listeners p ∧
  bindings p' = bindings p ∧
  ∀ i el, elements p !! i = Some el →
    ∃ el', elements p' !! i = Some el' ∧
           tagName el' = tagName el ∧
           ∀ name, name ≠ "style" → attributes el' !! name = attributes el !! name.
Proof.
  intros p'. pose proof (run_events_structure evs p) as Hs. fold p' in Hs.
  pose proof Hs as (Hh & Hl & Hb & Hsk).
  do 2 (split; [done|]).
  intros i el Hel. pose proof (same_structure_lookup p p' i Hs) as Hi.
  rewrite Hel in Hi. destruct (elements p' !! i) as [el'|]; [|done].
  injection Hi as Htag Hattrs. exists el'. by rewrite Htag, Hattrs.
Qed.

(** ** What a move writes, and what it overwrites *)

Lemma after_move_style h e region overlay prop :
  ¬ script_property prop →
  style (after_move h e region overlay) !! prop = style overlay !! prop.
Proof.
  intros Hprop. unfold after_move. simpl.
  rewrite lookup_insert_ne by (intros <-; apply Hprop; by right; right).
  rewrite lookup_insert_ne by (intros <-; apply Hprop; by right; left).
  by rewrite lookup_insert_ne by (intros <-; apply Hprop; by left).
Qed.

Lemma element_eq (el1 el2 : element) :
  tagName el1 = tagName el2 →
  attributes el1 = attributes el2 →
  style el1 = style el2 →
  innerHTML el1 = innerHTML el2 →
  el1 = el2.
Proof. destruct el1, el2. simpl. by intros -> -> -> ->. Qed.

(** The move listener overwrites all it writes: its result depends on
    the overlay only through what it leaves alone, and on the region
    only through its attributes. *)
Lemma after_move_absorbs h e region1 region2 overlay1 overlay2 :
  attributes region1 = attributes region2 →
  skeleton overlay1 = skeleton overlay2 →
  (∀ prop, ¬ script_property prop →
           style overlay1 !! prop = style overlay2 !! prop) →
  after_move h e region1 overlay1 = after_move h e region2 overlay2.
Proof.
  intros Hattrs [= Htag Ho] Hstyle. apply element_eq.
  - done.
  - done.
  - apply map_eq. intros prop.
    destruct (decide (prop = "left")) as [->|Hl].
    { by rewrite !after_move_left. }
    destruct (decide (prop = "top")) as [->|Ht].
    { by rewrite !after_move_top. }
    destruct (decide (prop = "display")) as [->|Hd].
    { by rewrite !after_move_display. }
    assert (¬ script_property prop) as Hprop
      by (intros [?|[?|?]]; congruence).
    rewrite !after_move_style by done. by apply Hstyle.
  - unfold after_move, region_value, elem_id. simpl. by rewrite Hattrs.
Qed.

Lemma with_elements_twice els1 els2 p :
  with_elements els2 (with_elements els1 p) = with_elements els2 p.
Proof. reflexivity. Qed.

Lemma move_absorbs_step t paths p r e ev :
  installed t paths p → r ∈ paths →
  dispatch r Mousemove e (step p ev) = dispatch r Mousemove e p.
Proof.
  intros Hinst Hr. destruct ev as [r1 type e1]. unfold step; simpl.
  destruct (decide (r1 ∈ paths)) as [Hr1|Hr1];
    [|by rewrite (dispatch_elsewhere t paths p r1 type e1)].
  destruct (installed_overlay _ _ _ Hinst) as [overlay Ho].
  destruct (installed_regions _ _ _ Hinst r Hr) as [region Hreg].
  destruct (installed_regions _ _ _ Hinst r1 Hr1) as [region1 Hreg1].
  pose proof (lookup_lt_Some _ _ _ Ho) as Hlen.
  rewrite (dispatch_move t paths p r e overlay region) by done.
  assert (∃ overlay1,
    dispatch r1 type e1 p = with_elements (<[t := overlay1]> (elements p)) p
    ∧ skeleton overlay1 = skeleton overlay
    ∧ ∀ prop, ¬ script_property prop →
              style overlay1 !! prop = style overlay !! prop)
    as (overlay1 & -> & Hsk & Hstyle).
  { destruct type.
    - erewrite dispatch_move by done. eexists. split; [done|].
      split; [done|]. intros prop Hprop. by apply after_move_style.
    - erewrite dispatch_leave by done. eexists. split; [done|].
      split; [done|]. intros prop Hprop. apply after_leave_style.
      intros ->. apply Hprop. by right; right. }
  set (p1 := with_elements (<[t:=overlay1]> (elements p)) p).
  assert (installed t paths p1) as Hinst1.
  { apply installed_with_elements; [done|]. by rewrite length_insert. }
  assert (elements p1 !! t = Some overlay1) as Ho1
    by by apply list_lookup_insert_eq.
  assert (∃ region', elements p1 !! r = Some region'
                     ∧ attributes region' = attributes region)
    as (region' & Hreg' & Hattrs).
  { destruct (decide (t = r)) as [->|Hne].
    - exists overlay1. split; [done|].
      rewrite Ho in Hreg. injection Hreg as <-. by injection Hsk.
    - exists region. split; [|done]. simpl. by rewrite list_lookup_insert_ne. }
  rewrite (dispatch_move t paths p1 r e overlay1 region') by done.
  unfold p1. rewrite with_elements_twice. simpl.
  rewrite list_insert_insert_eq. do 2 f_equal.
  by apply after_move_absorbs.
Qed.

(** X3: a [mousemove] over a region wipes out the trace of everything
    the listeners did before: dispatched after any sequence of events,
    it leaves the very page it would have left without them. *)
Theorem mousemove_absorbs_history t paths p r e evs :
  installed t paths p → r ∈ paths →
  dispatch r Mousemove e (run_events evs p) = dispatch r Mousemove e p.
Proof.
  intros Hinst Hr. revert p Hinst.
  induction evs as [|ev evs IH]; intros p Hinst; [done|].
  change (run_events (ev :: evs) p) with (run_events evs (step p ev)).
  destruct (step_invariant t paths p ev Hinst) as [Hinst' _].
  rewrite IH by done. by apply (move_absorbs_step t paths).
Qed.


(** ** A document without overlay *)

Lemma getAttribute_dangling r name p :
  elements p !! r = None →
  getAttribute r name p = Run [CallGetAttribute r name] (Throw TypeError) p.
Proof.
  intros Hr. unfold getAttribute, deref, mbind, DOM_bind, dom_bind; simpl.
  by rewrite Hr.
Qed.

Lemma on_mousemove_no_overlay p r e :
  outcome (on_mousemove None r e p) = Throw TypeError ∧
  final (on_mousemove None r e p) = p ∧
  count_calls is_mutation (calls (on_mousemove None r e p)) = 0.
Proof.
  destruct (elements p !! r) as [region|] eqn:Hr.
  - unfold on_mousemove.
    erewrite bind_normal by (by apply getAttribute_run).
    by erewrite bind_throw by apply set_style_null.
  - unfold on_mousemove.
    by erewrite bind_throw by (by apply getAttribute_dangling).
Qed.

Lemma call_no_overlay c e p :
  closure_tooltip c = None →
  outcome (call c e p) = Throw TypeError ∧
  final (call c e p) = p ∧
  count_calls is_mutation (calls (call c e p)) = 0.
Proof.
  destruct c as [tooltip state|tooltip]; simpl; intros ->.
  - apply on_mousemove_no_overlay.
  - done.
Qed.

Lemma invoke_all_no_overlay cs e p :
  Forall (λ c, closure_tooltip c = None) cs → invoke_all cs e p = p.
Proof.
  induction 1 as [|c cs Hc _ IH]; simpl; [done|].
  destruct (call_no_overlay c e p Hc) as (_ & -> & _). apply IH.
Qed.

Lemma script_listeners_tooltip tooltip paths :
  Forall (λ g, closure_tooltip (reg_callback g) = tooltip)
         (script_listeners tooltip paths).
Proof. induction paths as [|state paths IH]; simpl; by repeat constructor. Qed.

Lemma callbacks_for_tooltip tooltip paths r type :
  Forall (λ c, closure_tooltip c = tooltip)
         (callbacks_for r type (script_listeners tooltip paths)).
Proof.
  apply Forall_forall. intros c Hc. unfold callbacks_for in Hc.
  apply list_elem_of_fmap in Hc as (g & -> & Hg).
  apply list_elem_of_filter in Hg as [_ Hg].
  pose proof (script_listeners_tooltip tooltip paths) as Hall.
  rewrite Forall_forall in Hall. by apply Hall.
Qed.

Lemma dispatch_no_overlay paths p r type e :
  listeners p = script_listeners None paths → dispatch r type e p = p.
Proof.
  intros Hl. unfold dispatch. rewrite Hl.
  apply invoke_all_no_overlay, callbacks_for_tooltip.
Qed.

Lemma load_script_listeners p :
  ¬ declared "tooltip" p →
  listeners p = [] →
  listeners (final (load_script p))
  = script_listeners (found_tooltip p) (found_paths p).
Proof. intros Hfree Hl. rewrite load_script_run by done. simpl. by rewrite Hl. Qed.

(** Whether the script is accepted or rejected, the listeners of the
    page are then the script's own, on regions found at that time. *)
Lemma load_script_listeners_any p :
  listeners p = [] →
  ∃ paths,
    listeners (final (load_script p))
    = script_listeners (found_tooltip p) paths ∧
    ∀ r, r ∈ paths → r ∈ found_paths p.
Proof.
  intros Hl. destruct (decide (declared "tooltip" p)) as [Hbound|Hfree].
  - exists []. rewrite load_script_redeclared by done. simpl.
    split; [done|]. by intros r ?%elem_of_nil.
  - exists (found_paths p). by rewrite load_script_listeners.
Qed.

Lemma load_script_elements p : elements (final (load_script p)) = elements p.
Proof.
  destruct (decide (declared "tooltip" p)) as [Hbound|Hfree].
  - by rewrite load_script_redeclared.
  - by rewrite load_script_run.
Qed.

(** A page without regions and without overlay on which the script has
    run once has no listener, and rejects the script the second time. *)
Example reload_without_regions :
  let once := final (load_script (Page MissingIsNull [] [] [])) in
  listeners once = [] ∧ found_tooltip once = None ∧
  outcome (load_script once) = Throw SyntaxError.
Proof. by vm_compute. Qed.

(** X4: when the document has no element with id [tooltip] (and does
    not declare that name yet), loading the script still succeeds and
    registers its listeners; each of them then throws a [TypeError]
    before writing anything, and no sequence of events changes the
    page. *)
Theorem no_overlay_no_effect p :
  ¬ declared "tooltip" p →
  listeners p = [] →
  found_tooltip p = None →
  let loaded := final (load_script p) in
  outcome (load_script p) = Normal tt ∧
  listeners loaded = script_listeners None (found_paths p) ∧
  (∀ c e q, c ∈ reg_callback <$> listeners loaded →
            outcome (call c e q) = Throw TypeError ∧
            final (call c e q) = q ∧
            count_calls is_mutation (calls (call c e q)) = 0) ∧
  ∀ evs, run_events evs loaded = loaded.
Proof.
  intros Hfree Hl Hnone loaded.
  assert (listeners loaded = script_listeners None (found_paths p)) as Hloaded.
  { unfold loaded. by rewrite load_script_listeners, Hnone. }
  split; [by rewrite load_script_run|]. split; [done|]. split.
  - intros c e q Hc. apply call_no_overlay.
    rewrite Hloaded in Hc. apply list_elem_of_fmap in Hc as (g & -> & Hg).
    pose proof (script_listeners_tooltip None (found_paths p)) as Hall.
    rewrite Forall_forall in Hall. by apply Hall.
  - intros evs. unfold run_events.
    induction evs as [|ev evs IH]; simpl; [done|].
    unfold step at 2. by rewrite (dispatch_no_overlay (found_paths p)).
Qed.

(** ** Events on other elements *)

Lemma dispatch_unregistered tooltip paths p r type e :
  listeners p = script_listeners tooltip paths →
  r ∉ paths → dispatch r type e p = p.
Proof.
  intros Hl Hr. unfold dispatch. by rewrite Hl, callbacks_for_absent.
Qed.

(** X5: a [mouseleave] on an element that was not a [path] when the
    script was loaded, the overlay for one, reaches no listener: at any
    later time it leaves the page as it is, overlay included. *)
Theorem leave_elsewhere_ignored p r evs e :
  listeners p = [] →
  ¬ (∃ el, elements p !! r = Some el ∧ tagName el = "path") →
  dispatch r Mouseleave e (run_events evs (final (load_script p)))
  = run_events evs (final (load_script p)).
Proof.
  intros Hl Hr.
  destruct (load_script_listeners_any p Hl) as (paths & Hpaths & Hsub).
  apply (dispatch_unregistered (found_tooltip p) paths).
  - by destruct (run_events_structure evs (final (load_script p)))
      as (_ & -> & _).
  - intros Hin%Hsub. by apply found_paths_spec in Hin.
Qed.

(** X6: the regions are enumerated once, when the script is loaded: a
    [path] that other code appends to the document afterwards is one a
    new enumeration would find, yet events on it reach no listener. *)
Theorem late_region_ignored p el type e :
  listeners p = [] →
  tagName el = "path" →
  let later := append_element el (final (load_script p)) in
  let r := length (elements p) in
  elements later !! r = Some el ∧
  r ∈ found_paths later ∧
  dispatch r type e later = later.
Proof.
  intros Hl Htag later r.
  assert (elements later !! r = Some el) as Hel.
  { unfold later, r, append_element, with_elements. cbn [elements].
    rewrite load_script_elements.
    rewrite lookup_app_r by done. by rewrite Nat.sub_diag. }
  split; [done|]. split.
  - apply found_paths_spec. eauto.
  - destruct (load_script_listeners_any p Hl) as (paths & Hpaths & Hsub).
    apply (dispatch_unregistered (found_tooltip p) paths); [done|].
    intros (el' & Hel' & _)%Hsub%found_paths_spec.
    apply lookup_lt_Some in Hel'. unfold r in Hel'. lia.
Qed.

(** ** How many listeners the script registers *)

Lemma select_tag_length tag i els :
  length (select_tag tag i els)
  = length (filter (λ el, tagName el = tag) els).
Proof.
  revert i. induction els as [|el els IH]; intros i; simpl; [done|].
  destruct (decide (tagName el = tag)).
  - rewrite filter_cons_True by done. simpl. by rewrite IH.
  - rewrite filter_cons_False by done. by rewrite IH.
Qed.

Lemma script_listeners_length tooltip paths :
  length (script_listeners tooltip paths) = 2 * length paths.
Proof. induction paths as [|state paths IH]; simpl; lia. Qed.

Lemma registration_calls_length paths :
  length (registration_calls paths) = 2 * length paths.
Proof. induction paths as [|state paths IH]; simpl; lia. Qed.

(** X8: on a page that does not declare [tooltip] yet, loading the
    script adds two listeners per [path] element of the document; on a
    document without [path] elements it registers nothing. *)
Theorem load_script_listener_count p :
  ¬ declared "tooltip" p →
  let regions := length (filter (λ el, tagName el = "path") (elements p)) in
  length (listeners (final (load_script p)))
  = length (listeners p) + 2 * regions ∧
  (regions = 0 → listeners (final (load_script p)) = listeners p).
Proof.
  intros Hfree regions. rewrite load_script_run by done. simpl.
  assert (length (found_paths p) = regions) as Hn
    by apply select_tag_length.
  rewrite length_app, script_listeners_length, Hn.
  split; [done|].
  intros Hz. rewrite Hz in Hn. apply nil_length_inv in Hn.
  rewrite Hn. simpl. by rewrite app_nil_r.
Qed.

(** ** Positions *)

Lemma decimal_inj n1 n2 : decimal n1 +:+ "px" = decimal n2 +:+ "px" → n1 = n2.
Proof.
  intros Heq. pose proof (px_value_decimal n1) as H1.
  rewrite Heq, px_value_decimal in H1. by injection H1.
Qed.

(** X9: at whole page coordinates between [-2 ^ 53] and [2 ^ 53 - 10],
    negative ones included, the overlay follows the pointer without
    clamping: [left] and [top] read back as the coordinate plus ten,
    and two moves give the overlay the same [left] (or [top]) only when
    their [pageX] (or [pageY]) are the same. *)
Theorem mousemove_position_tracks t paths p r1 r2 x1 y1 x2 y2 :
  installed t paths p → r1 ∈ paths → r2 ∈ paths →
  (- 2 ^ 53 ≤ x1 ≤ 2 ^ 53 - 10)%Z → (- 2 ^ 53 ≤ y1 ≤ 2 ^ 53 - 10)%Z →
  (- 2 ^ 53 ≤ x2 ≤ 2 ^ 53 - 10)%Z → (- 2 ^ 53 ≤ y2 ≤ 2 ^ 53 - 10)%Z →
  ∃ o1 o2,
    elements (dispatch r1 Mousemove (event_at x1 y1) p) !! t = Some o1 ∧
    elements (dispatch r2 Mousemove (event_at x2 y2) p) !! t = Some o2 ∧
    style o1 !! "left" ≫= px_value = Some (x1 + 10)%Z ∧
    style o1 !! "top" ≫= px_value = Some (y1 + 10)%Z ∧
    (style o1 !! "left" = style o2 !! "left" ↔ x1 = x2) ∧
    (style o1 !! "top" = style o2 !! "top" ↔ y1 = y2).
Proof.
  intros Hinst Hr1 Hr2 Hx1 Hy1 Hx2 Hy2.
  destruct (installed_overlay _ _ _ Hinst) as [overlay Ho].
  destruct (installed_regions _ _ _ Hinst r1 Hr1) as [region1 Hreg1].
  destruct (installed_regions _ _ _ Hinst r2 Hr2) as [region2 Hreg2].
  pose proof (lookup_lt_Some _ _ _ Ho) as Hlen.
  rewrite (dispatch_move t paths p r1 _ overlay region1) by done.
  rewrite (dispatch_move t paths p r2 _ overlay region2) by done.
  simpl. eexists _, _.
  split; [by apply list_lookup_insert_eq|].
  split; [by apply list_lookup_insert_eq|].
  rewrite !after_move_left, !after_move_top. simpl.
  rewrite !pixels_int by lia. rewrite !px_value_decimal.
  split; [done|]. split; [done|]. split.
  - split; [intros [= Heq%decimal_inj]; lia | by intros ->].
  - split; [intros [= Heq%decimal_inj]; lia | by intros ->].
Qed.

(** ** The overlay is the element found when the script was loaded *)

Lemma found_tooltip_id p t :
  found_tooltip p = Some t →
  ∃ overlay, elements p !! t = Some overlay ∧ elem_id overlay = "tooltip".
Proof.
  unfold found_tooltip. intros Ht.
  destruct (list_find _ _) as [[i el]|] eqn:Hfind; [|done].
  injection Ht as <-. apply list_find_Some in Hfind as (Hi & Hid & _). eauto.
Qed.

(** X11: the listeners keep the element they captured: when other
    code gives the overlay another id, a lookup by id no longer finds
    it, and still a move over a region writes to that element. *)
Theorem overlay_captured_at_load t paths p r e region name :
  installed t paths p → r ∈ paths → r ≠ t →
  elements p !! r = Some region →
  name ≠ "tooltip" →
  let renamed := setAttribute t "id" name p in
  found_tooltip renamed ≠ Some t ∧
  ∃ overlay',
    elements (dispatch r Mousemove e renamed) !! t = Some overlay' ∧
    elem_id overlay' = name ∧
    shown overlay' ∧
    innerHTML overlay' =
      elem_id region +:+ ": " +:+ ToString (region_value (host p) region).
Proof.
  intros Hinst Hr Hne Hreg Hname renamed.
  destruct (installed_overlay _ _ _ Hinst) as [overlay Ho].
  assert (installed t paths renamed) as Hinst'.
  { unfold renamed, setAttribute.
    apply installed_with_elements; [done|]. by rewrite length_alter. }
  assert (elements renamed !! t = Some (with_attribute "id" name overlay))
    as Ho'.
  { unfold renamed, setAttribute, with_elements. cbn [elements].
    by rewrite list_lookup_alter_eq, Ho. }
  assert (elements renamed !! r = Some region) as Hreg'.
  { unfold renamed, setAttribute, with_elements. cbn [elements].
    by rewrite list_lookup_alter_ne. }
  split.
  - intros (el & Hel & Hid)%found_tooltip_id.
    rewrite Ho' in Hel. injection Hel as <-.
    unfold elem_id in Hid. simpl in Hid.
    rewrite lookup_insert_eq in Hid. by simpl in Hid.
  - erewrite dispatch_move by done. simpl.
    eexists. split.
    { apply list_lookup_insert_eq. rewrite length_alter.
      by eapply lookup_lt_Some. }
    split; [|split; [apply shown_block|done]].
    unfold elem_id. simpl. by rewrite lookup_insert_eq.
Qed.

(** ** From loading the script to hovering a region *)

Lemma found_tooltip_first p t overlay :
  elements p !! t = Some overlay →
  elem_id overlay = "tooltip" →
  (∀ j el, j < t → elements p !! j = Some el → elem_id el ≠ "tooltip") →
  found_tooltip p = Some t.
Proof.
  intros Ho Hid Hfirst. unfold found_tooltip.
  assert (list_find (λ el, elem_id el = "tooltip") (elements p)
          = Some (t, overlay)) as ->; [|done].
  apply list_find_Some. split; [done|]. split; [done|].
  intros j el Hel Hj. by apply (Hfirst j).
Qed.

(** X1: on a document that does not declare [tooltip] yet and whose
    first element with id [tooltip] is [t], once the script is loaded a
    move over any [path] element shows the overlay [t], with [left] and
    [top] the values of [e.pageX + 10 + 'px'] and [e.pageY + 10 + 'px']
    and the region's id and value assigned to its [innerHTML]; a leave
    that follows hides it and keeps position and content. *)
Theorem load_then_hover p t overlay r region e e' :
  ¬ declared "tooltip" p →
  listeners p = [] →
  elements p !! t = Some overlay →
  elem_id overlay = "tooltip" →
  (∀ j el, j < t → elements p !! j = Some el → elem_id el ≠ "tooltip") →
  elements p !! r = Some region →
  tagName region = "path" →
  let hovered := dispatch r Mousemove e (final (load_script p)) in
  let markup :=
    elem_id region +:+ ": " +:+ ToString (region_value (host p) region) in
  ∃ o1 o2,
    elements hovered !! t = Some o1 ∧
    overlay_state o1 =
      (Some (pixels (pageX e)), Some (pixels (pageY e)),
       Some "block", markup) ∧
    elements (dispatch r Mouseleave e' hovered) !! t = Some o2 ∧
    overlay_state o2 =
      (Some (pixels (pageX e)), Some (pixels (pageY e)),
       Some "none", markup).
Proof.
  intros Hfree Hl Ho Hid Hfirst Hreg Htag hovered markup.
  pose proof (found_tooltip_first p t overlay Ho Hid Hfirst) as Ht.
  pose proof (load_script_installed p t Hfree Hl Ht) as Hinst.
  assert (r ∈ found_paths p) as Hr by (apply found_paths_spec; eauto).
  assert (elements (final (load_script p)) = elements p) as Hels
    by by rewrite load_script_run.
  assert (host (final (load_script p)) = host p) as Hhost
    by by rewrite load_script_run.
  assert (t < length (elements (final (load_script p)))) as Hlen
    by (rewrite Hels; by eapply lookup_lt_Some).
  unfold hovered.
  rewrite (dispatch_move t (found_paths p) _ r e overlay region)
    by (by rewrite ?Hels).
  set (o1 := after_move _ e region overlay).
  set (p1 := with_elements _ _).
  assert (elements p1 !! t = Some o1) as Ho1.
  { by apply list_lookup_insert_eq. }
  assert (installed t (found_paths p) p1) as Hinst1.
  { apply installed_with_elements; [done|]. by rewrite length_insert. }
  rewrite (dispatch_leave t (found_paths p) p1 r e' o1) by done.
  exists o1, (after_leave o1). split; [done|]. split.
  { unfold overlay_state, o1.
    by rewrite after_move_left, after_move_top, after_move_display, Hhost. }
  split.
  { apply list_lookup_insert_eq. unfold p1, with_elements. cbn [elements].
    by rewrite length_insert. }
  unfold overlay_state.
  rewrite after_leave_display, !after_leave_style by done.
  unfold o1. by rewrite after_move_left, after_move_top, Hhost.
Qed.

(** ** The further properties at concrete pages *)

Lemma demo_not_declared h : ¬ declared "tooltip" (demo_document h).
Proof. by apply not_declared_nil. Qed.

Lemma load_then_hover_witness :
  let p := demo_document MissingIsNull in
  let e := event_at 100 200 in
  let hovered := dispatch 1 Mousemove e (final (load_script p)) in
  let markup :=
    elem_id path_CA +:+ ": " +:+ ToString (region_value (host p) path_CA) in
  ¬ declared "tooltip" p ∧
  listeners p = [] ∧
  elements p !! 0 = Some tooltip_div ∧
  elem_id tooltip_div = "tooltip" ∧
  (∀ j el, j < 0 → elements p !! j = Some el → elem_id el ≠ "tooltip") ∧
  elements p !! 1 = Some path_CA ∧
  tagName path_CA = "path" ∧
  ∃ o1 o2,
    elements hovered !! 0 = Some o1 ∧
    overlay_state o1 =
      (Some (pixels (pageX e)), Some (pixels (pageY e)),
       Some "block", markup) ∧
    elements (dispatch 1 Mouseleave (event_at 0 0) hovered) !! 0 = Some o2 ∧
    overlay_state o2 =
      (Some (pixels (pageX e)), Some (pixels (pageY e)),
       Some "none", markup).
Proof.
  intros p e hovered markup.
  pose proof (demo_not_declared MissingIsNull) as Hfree.
  assert (∀ j el, j < 0 → elements p !! j = Some el → elem_id el ≠ "tooltip")
    as Hfirst by (intros j el Hj; lia).
  split; [exact Hfree|].
  do 3 (split; [reflexivity|]). split; [exact Hfirst|].
  do 2 (split; [reflexivity|]).
  exact (load_then_hover p 0 tooltip_div 1 path_CA e (event_at 0 0)
           Hfree eq_refl eq_refl eq_refl Hfirst eq_refl eq_refl).
Defined.


Lemma mousemove_absorbs_history_witness :
  let evs := [ PointerEvent 2 Mousemove (event_at 5 7);
               PointerEvent 2 Mouseleave (event_at 0 0);
               PointerEvent 1 Mousemove (event_at 1 1) ] in
  installed 0 [1; 2] stale_page ∧
  1 ∈ [1; 2] ∧
  dispatch 1 Mousemove (event_at 100 200) (run_events evs stale_page)
  = dispatch 1 Mousemove (event_at 100 200) stale_page.
Proof.
  intros evs.
  pose proof stale_installed as Hinst.
  pose proof region_1 as Hr.
  do 2 (split; [first [exact Hinst | exact Hr]|]).
  exact (mousemove_absorbs_history 0 [1; 2] stale_page 1
           (event_at 100 200) evs Hinst Hr).
Defined.

Lemma bare_not_declared : ¬ declared "tooltip" bare_document.
Proof. by apply not_declared_nil. Qed.

Lemma no_overlay_no_effect_witness :
  let loaded := final (load_script bare_document) in
  ¬ declared "tooltip" bare_document ∧
  listeners bare_document = [] ∧
  found_tooltip bare_document = None ∧
  outcome (load_script bare_document) = Normal tt ∧
  listeners loaded = script_listeners None (found_paths bare_document) ∧
  (∀ c e q, c ∈ reg_callback <$> listeners loaded →
            outcome (call c e q) = Throw TypeError ∧
            final (call c e q) = q ∧
            count_calls is_mutation (calls (call c e q)) = 0) ∧
  ∀ evs, run_events evs loaded = loaded.
Proof.
  intros loaded.
  split; [exact bare_not_declared|].
  do 2 (split; [reflexivity|]).
  exact (no_overlay_no_effect bare_document bare_not_declared eq_refl eq_refl).
Defined.

Lemma overlay_is_no_path :
  ¬ (∃ el, elements (demo_document MissingIsNull) !! 0 = Some el
           ∧ tagName el = "path").
Proof. intros (el & [= <-] & Htag). discriminate. Qed.

Lemma leave_elsewhere_ignored_witness :
  let p := demo_document MissingIsNull in
  let evs := [PointerEvent 1 Mousemove (event_at 100 200)] in
  listeners p = [] ∧
  ¬ (∃ el, elements p !! 0 = Some el ∧ tagName el = "path") ∧
  dispatch 0 Mouseleave (event_at 110 210) (run_events evs (final (load_script p)))
  = run_events evs (final (load_script p)).
Proof.
  intros p evs.
  split; [reflexivity|]. split; [exact overlay_is_no_path|].
  exact (leave_elsewhere_ignored p 0 evs (event_at 110 210)
           eq_refl overlay_is_no_path).
Defined.

Lemma late_region_ignored_witness :
  let p := demo_document MissingIsNull in
  let later := append_element path_escaped (final (load_script p)) in
  listeners p = [] ∧
  tagName path_escaped = "path" ∧
  elements later !! 3 = Some path_escaped ∧
  3 ∈ found_paths later ∧
  dispatch 3 Mousemove (event_at 100 200) later = later.
Proof.
  intros p later.
  do 2 (split; [reflexivity|]).
  exact (late_region_ignored p path_escaped Mousemove (event_at 100 200)
           eq_refl eq_refl).
Defined.

Lemma load_script_listener_count_witness :
  let p := demo_document MissingIsNull in
  let regions := length (filter (λ el, tagName el = "path") (elements p)) in
  ¬ declared "tooltip" p ∧
  length (listeners (final (load_script p)))
  = length (listeners p) + 2 * regions ∧
  (regions = 0 → listeners (final (load_script p)) = listeners p).
Proof.
  intros p regions.
  pose proof (demo_not_declared MissingIsNull) as Hfree.
  split; [exact Hfree|].
  exact (load_script_listener_count p Hfree).
Defined.

Lemma mousemove_position_tracks_witness :
  installed 0 [1; 2] (demo_page MissingIsNull) ∧
  1 ∈ [1; 2] ∧ 2 ∈ [1; 2] ∧
  (- 2 ^ 53 ≤ -25 ≤ 2 ^ 53 - 10)%Z ∧ (- 2 ^ 53 ≤ 0 ≤ 2 ^ 53 - 10)%Z ∧
  (- 2 ^ 53 ≤ 100 ≤ 2 ^ 53 - 10)%Z ∧ (- 2 ^ 53 ≤ 0 ≤ 2 ^ 53 - 10)%Z ∧
  ∃ o1 o2,
    elements (dispatch 1 Mousemove (event_at (-25) 0)
                (demo_page MissingIsNull)) !! 0 = Some o1 ∧
    elements (dispatch 2 Mousemove (event_at 100 0)
                (demo_page MissingIsNull)) !! 0 = Some o2 ∧
    style o1 !! "left" ≫= px_value = Some (-25 + 10)%Z ∧
    style o1 !! "top" ≫= px_value = Some (0 + 10)%Z ∧
    (style o1 !! "left" = style o2 !! "left" ↔ (-25)%Z = 100%Z) ∧
    (style o1 !! "top" = style o2 !! "top" ↔ 0%Z = 0%Z).
Proof.
  pose proof (demo_installed MissingIsNull) as Hinst.
  pose proof region_1 as Hr1.
  pose proof region_2 as Hr2.
  assert (- 2 ^ 53 ≤ -25 ≤ 2 ^ 53 - 10)%Z as Hx1 by lia.
  assert (- 2 ^ 53 ≤ 0 ≤ 2 ^ 53 - 10)%Z as Hy by lia.
  assert (- 2 ^ 53 ≤ 100 ≤ 2 ^ 53 - 10)%Z as Hx2 by lia.
  do 7 (split; [first [exact Hinst | exact Hr1 | exact Hr2 | exact Hx1
                      | exact Hy | exact Hx2]|]).
  exact (mousemove_position_tracks 0 [1; 2] (demo_page MissingIsNull)
           1 2 (-25)%Z 0%Z 100%Z 0%Z Hinst Hr1 Hr2 Hx1 Hy Hx2 Hy).
Defined.

Lemma overlay_captured_at_load_witness :
  let p := demo_page MissingIsNull in
  let renamed := setAttribute 0 "id" "legend" p in
  installed 0 [1; 2] p ∧
  1 ∈ [1; 2] ∧ 1 ≠ 0 ∧
  elements p !! 1 = Some path_CA ∧
  "legend" ≠ "tooltip" ∧
  found_tooltip renamed ≠ Some 0 ∧
  ∃ overlay',
    elements (dispatch 1 Mousemove (event_at 100 200) renamed) !! 0
      = Some overlay' ∧
    elem_id overlay' = "legend" ∧
    shown overlay' ∧
    innerHTML overlay' =
      elem_id path_CA +:+ ": " +:+ ToString (region_value (host p) path_CA).
Proof.
  intros p renamed.
  pose proof (demo_installed MissingIsNull) as Hinst.
  pose proof region_1 as Hr.
  assert (1 ≠ 0) as Hne by lia.
  assert ("legend" ≠ "tooltip") as Hname by discriminate.
  do 5 (split; [first [exact Hinst | exact Hr | exact Hne | exact Hname
                      | reflexivity]|]).
  exact (overlay_captured_at_load 0 [1; 2] p 1 (event_at 100 200) path_CA
           "legend" Hinst Hr Hne eq_refl Hname).
Defined.
